(** * MCPlex server: session dispatch, tool registry and tool bodies

    A shallow embedding of the server side of the repository:
    - [server/index.js] (the file that imports [registerTools] and
      creates the Express application): the dispatcher and its session
      table;
    - [server/tools.js] and [server/tools-basic.js]: the registered tools
      and their handlers;
    - [server/twitter.tool.js] (the file that exports [createPost]).

    The MCP SDK ([McpServer], [StreamableHTTPServerTransport]) is a
    dependency of the repository; what the dispatcher and the tools need
    of it is modelled from the specification and marked as such.

    Strings are byte strings; numbers that reach the modelled code are
    integers (within the range where JavaScript arithmetic on doubles is
    exact) and are represented in [Z]. *)

From stdpp Require Import gmap strings list sorting pretty.
From Stdlib Require Import ZArith Lia Ascii.

Open Scope Z_scope.

Set Warnings "-clear-no-such-hyp,-register-all".

(** ** JavaScript primitives used by the sources *)

Module Js.

(** The result of awaiting an external operation: it resolves with a
    value or rejects with an [Error] carrying a message. *)
Inductive Outcome (A : Type) : Type :=
| Resolved (a : A)
| Rejected (message : string).
Arguments Resolved {A} a.
Arguments Rejected {A} message.

(** ToInt32. *)
Definition to_int32 (z : Z) : Z := (z + 2 ^ 31) mod 2 ^ 32 - 2 ^ 31.

(** [a << b], [a >> b] and [a & b] on numbers holding integers. *)
Definition shl (a b : Z) : Z := to_int32 (Z.shiftl (to_int32 a) (b mod 32)).
Definition shr (a b : Z) : Z := Z.shiftr (to_int32 a) (b mod 32).
Definition band (a b : Z) : Z := Z.land (to_int32 a) (to_int32 b).

(** [Boolean(x)] for a number. *)
Definition Boolean (z : Z) : bool := negb (z =? 0).

(** Truthiness of a string: only the empty string is falsy. *)
Definition truthy (s : string) : bool :=
  match s with EmptyString => false | _ => true end.

Definition code (c : ascii) : nat := nat_of_ascii c.

Definition is_upper (c : ascii) : bool :=
  (65 <=? code c)%nat && (code c <=? 90)%nat.
Definition is_lower (c : ascii) : bool :=
  (97 <=? code c)%nat && (code c <=? 122)%nat.
Definition is_digit (c : ascii) : bool :=
  (48 <=? code c)%nat && (code c <=? 57)%nat.

(** The regular-expression class [\w]. *)
Definition is_word (c : ascii) : bool :=
  is_upper c || is_lower c || is_digit c || (code c =? 95)%nat.

(** [String.prototype.toLowerCase] on ASCII text. *)
Definition lower_char (c : ascii) : ascii :=
  if is_upper c then ascii_of_nat (code c + 32) else c.

Fixpoint toLowerCase (s : string) : string :=
  match s with
  | EmptyString => EmptyString
  | String c r => String (lower_char c) (toLowerCase r)
  end.

(** [s.startsWith(p)] and [s.includes(p)]. *)
Fixpoint startsWith (p s : string) : bool :=
  match p, s with
  | EmptyString, _ => true
  | String a p', String b s' => if decide (a = b) then startsWith p' s' else false
  | String _ _, EmptyString => false
  end.

Fixpoint includes (s p : string) : bool :=
  startsWith p s ||
  match s with
  | EmptyString => false
  | String _ r => includes r p
  end.

(** [sep.join(l)] and [s.repeat(n)]. *)
Fixpoint join (sep : string) (l : list string) : string :=
  match l with
  | [] => ""
  | [x] => x
  | x :: r => x +:+ sep +:+ join sep r
  end.

Fixpoint repeat (s : string) (n : nat) : string :=
  match n with
  | O => ""
  | S k => s +:+ repeat s k
  end.

(** Template-literal rendering of an integer-valued number. *)
Definition num (z : Z) : string := pretty z.

End Js.

(** ** The truth-table tool ([truth_table] in server/tools.js) *)

Module TruthTable.
Import Js.

(** [expr.match(/\b[A-Z]\b/g)], scanning left to right; [prev] is the
    character before the current position. The absent match ([null]) is
    the empty list: [new Set(null)] is the empty set. *)
Fixpoint match_vars (prev : option ascii) (s : list ascii) : list ascii :=
  match s with
  | [] => []
  | c :: rest =>
      let before := match prev with None => true | Some p => negb (is_word p) end in
      let after := match rest with [] => true | n :: _ => negb (is_word n) end in
      (if is_upper c && before && after then [c] else [])
        ++ match_vars (Some c) rest
  end.

(** [new Set(matches)] spread into an array: first occurrences, in order. *)
Definition new_Set (l : list ascii) : list ascii :=
  fold_left (fun acc x => if decide (x ∈ acc) then acc else acc ++ [x]) l [].

(** The default comparison of [Array.prototype.sort] on one-letter
    strings: by character code. *)
Definition char_le (a b : ascii) : Prop := (code a <= code b)%nat.

#[global] Instance char_le_dec : RelDecision char_le.
Proof. intros a b. unfold char_le. apply _. Defined.

Definition sort (l : list ascii) : list ascii := merge_sort char_le l.

(** Strictly ascending order of letters. *)
Definition char_lt (a b : ascii) : Prop := (code a < code b)%nat.

Definition extractVariables (expr : string) : list ascii :=
  sort (new_Set (match_vars None (String.list_ascii_of_string expr))).

(** A row is the object [{A: true, B: false, ...}]. *)
Abbreviation Row := (gmap ascii bool).

(** The [vars.forEach((v, j) => row[v] = Boolean((i >> (n - j - 1)) & 1))]
    of one iteration, from index [j] on. *)
Fixpoint fill_row (n i : Z) (j : Z) (vars : list ascii) (row : Row) : Row :=
  match vars with
  | [] => row
  | v :: rest =>
      fill_row n i (j + 1) rest (<[v := Boolean (band (shr i (n - j - 1)) 1)]> row)
  end.

Definition generateCombinations (vars : list ascii) : list Row :=
  let n := Z.of_nat (length vars) in
  map (fun i => fill_row n (Z.of_nat i) 0 vars ∅)
      (seq 0 (Z.to_nat (shl 1 n))).

(** [expr.replace(/\b([A-Z])\b/g, (_, v) => assignment[v])]; a variable
    missing from the assignment renders as [undefined]. *)
Definition render_bool (o : option bool) : string :=
  match o with
  | Some true => "true"
  | Some false => "false"
  | None => "undefined"
  end.

Fixpoint replace_vars (assignment : Row) (prev : option ascii) (s : list ascii) : string :=
  match s with
  | [] => ""
  | c :: rest =>
      let before := match prev with None => true | Some p => negb (is_word p) end in
      let after := match rest with [] => true | n :: _ => negb (is_word n) end in
      (if is_upper c && before && after
       then render_bool (assignment !! c) else String c "")
        +:+ replace_vars assignment (Some c) rest
  end.

(** What the direct [eval] of [evaluate] can do. The evaluated text runs
    in the scope of [evaluate(expr, assignment)], inside the handler:
    - [Done]: it yields a value, and of the handler's objects it has
      changed at most the row it was handed ([assignment]), which the
      handler copies afterwards;
    - [Raised]: it throws, and [message] is what the template literal
      [${e.message}] of the handler's [catch] block gives for the thrown
      value: the text, or the [TypeError] that reading [message] of [null]
      or [undefined] throws;
    - [Tampered]: it has changed another object the handler uses
      afterwards ([vars], [combinations], [FORMAT], a built-in), which
      takes the rest of the call out of what this file describes;
      [answer] is how the call then ends: with the text of the block it
      returns, or with the error it throws. *)
Inductive Run (A : Type) : Type :=
| Done (a : A)
| Raised (message : Outcome string)
| Tampered (answer : Outcome string).
Arguments Done {A} a.
Arguments Raised {A} message.
Arguments Tampered {A} answer.

Section Eval.
(** [eval] is outside the repository. Of the value it yields only the
    truthiness is used; of the row as the evaluation leaves it, only the
    truthiness of the properties the table shows. *)
Variable eval : string -> Row -> Run (bool * Row).

Definition evaluate (expr : string) (assignment : Row) : Run (bool * Row) :=
  eval (replace_vars assignment None (String.list_ascii_of_string expr)) assignment.

(** [combinations.map(row => { const result = evaluate(expression, row);
    return { ...row, result }; })]: the copy is taken after the
    evaluation; the first [evaluate] that throws aborts the map. *)
Fixpoint build_table (expr : string) (rows : list Row) : Run (list (Row * bool)) :=
  match rows with
  | [] => Done []
  | row :: rest =>
      match evaluate expr row with
      | Done (result, row') =>
          match build_table expr rest with
          | Done t => Done ((row', result) :: t)
          | Raised e => Raised e
          | Tampered a => Tampered a
          end
      | Raised e => Raised e
      | Tampered a => Tampered a
      end
  end.

End Eval.

(** The number a row spells when the variables are read in order, the
    first one as the most significant bit. *)
Definition row_bits (vars : list ascii) (row : Row) : list bool :=
  map (fun v => default false (row !! v)) vars.

Definition binary_value (bits : list bool) : Z :=
  fold_left (fun acc (b : bool) => 2 * acc + (if b then 1 else 0)) bits 0.

(** A variable of the expression: an upper-case letter that stands alone
    as a word. *)
Definition is_variable_of (expr : string) (c : ascii) : Prop :=
  ∃ pre post : list ascii,
    String.list_ascii_of_string expr = pre ++ c :: post
    ∧ is_upper c = true
    ∧ (∀ p, last pre = Some p → is_word p = false)
    ∧ (∀ n, head post = Some n → is_word n = false).

End TruthTable.

(** ** The file-search tool ([local-file-search] in server/tools.js) *)

Module FileSearch.
Import Js.

(** The [fileType] enumeration of the input schema. *)
Inductive FileType := all | name | extension | content.

#[global] Instance FileType_eq_dec : EqDecision FileType.
Proof. solve_decision. Defined.

(** What [fs.statSync] yields, as far as the tool reads it: the size in
    bytes and the modification time in milliseconds. *)
Record Stats := { size : Z; mtime : Z }.

(** A directory entry as [readdirSync(dir, {withFileTypes: true})] lists
    it, with what the scan can observe below it. [File] is any entry for
    which [isDirectory()] is false: [contents] is the result of
    [readFile(fullPath, 'utf8')], [stat] that of [fs.statSync(fullPath)].
    [Locked] is a directory whose [readdirSync] throws. *)
Inductive Dirent :=
| File (fname : string) (contents : Outcome string) (stat : Outcome Stats)
| Directory (dname : string) (entries : list Dirent)
| Locked (dname : string) (message : string).

Definition dirent_name (file : Dirent) : string :=
  match file with
  | File n _ _ | Directory n _ | Locked n _ => n
  end.

Definition isDirectory (file : Dirent) : bool :=
  match file with
  | File _ _ _ => false
  | Directory _ _ | Locked _ _ => true
  end.

(** [path.join(dir, file.name)]: a path is the list of its components,
    the searched directory first. *)
Definition Path : Type := list string.
Definition path_join (dir : Path) (n : string) : Path := dir ++ [n].

(** [path.extname] on a file name (no separator inside): the text from
    the last dot on, empty when there is no dot, when the only dot leads
    the name, or for the name [..]. *)
Fixpoint from_last_dot (s : string) : option string :=
  match s with
  | EmptyString => None
  | String c r =>
      match from_last_dot r with
      | Some e => Some e
      | None => if decide (c = "."%char) then Some (String c r) else None
      end
  end.

Definition extname (n : string) : string :=
  match n with
  | String "."%char r =>
      if decide (r = ".") then "" else default "" (from_last_dot r)
  | _ => default "" (from_last_dot n)
  end.

(** [s.slice(1)]. *)
Definition slice1 (s : string) : string :=
  match s with
  | EmptyString => EmptyString
  | String _ r => r
  end.

Definition textExtensions : list string :=
  [".txt"; ".js"; ".json"; ".html"; ".css"; ".md"; ".csv"; ".xml"; ".log"].

(** An element of [results]. *)
Record Found := {
  found_name : string;
  found_path : Path;
  found_size : Z;
  lastModified : Z
}.

(** The three variables the scan mutates. *)
Record Scan := {
  results : list Found;
  scannedFiles : Z;
  matchedFiles : Z
}.

Definition scan_start : Scan :=
  {| results := []; scannedFiles := 0; matchedFiles := 0 |}.

(** The guard in front of the recursive call. *)
Definition skipped (n : string) : bool :=
  bool_decide (n = "node_modules") || bool_decide (n = ".git").

Section Search.
Variable searchTerm : string.
Variable fileType : FileType.

(** The three tests that set [isMatch]; a failing [readFile] is caught
    and leaves [isMatch] as it was. *)
Definition isMatch (fname : string) (contents : Outcome string) : bool :=
  let fileExtension := toLowerCase (extname fname) in
  let m1 :=
    if bool_decide (fileType = all) || bool_decide (fileType = name)
    then includes (toLowerCase fname) (toLowerCase searchTerm)
    else false in
  let m2 :=
    if (bool_decide (fileType = all) || bool_decide (fileType = extension)) && negb m1
    then
      let extWithoutDot := toLowerCase (slice1 fileExtension) in
      bool_decide (extWithoutDot = toLowerCase searchTerm)
      || bool_decide (toLowerCase fileExtension = toLowerCase searchTerm)
    else m1 in
  if (bool_decide (fileType = all) || bool_decide (fileType = content)) && negb m2
  then
    if bool_decide (fileExtension ∈ textExtensions)
    then match contents with
         | Resolved text => includes (toLowerCase text) (toLowerCase searchTerm)
         | Rejected _ => false
         end
    else false
  else m2.

(** The [else] branch of the loop body: one entry that is not a
    directory. *)
Definition scan_file (fullPath : Path) (fname : string)
    (contents : Outcome string) (stat : Outcome Stats) (st : Scan) : Scan :=
  let scanned := scannedFiles st + 1 in
  if isMatch fname contents
  then
    let stats := match stat with
                 | Resolved s => s
                 | Rejected _ => {| size := 0; mtime := 0 |}
                 end in
    {| results := results st ++ [{| found_name := fname; found_path := fullPath;
                                    found_size := size stats;
                                    lastModified := mtime stats |}];
       scannedFiles := scanned;
       matchedFiles := matchedFiles st + 1 |}
  else
    {| results := results st; scannedFiles := scanned;
       matchedFiles := matchedFiles st |}.

(** [for (const file of files) { body; if (results.length >= 20) break; }]
    where the body may throw: the state so far and the message thrown, if
    any. *)
Section Loop.
Variable body : Dirent -> Scan -> Scan * option string.

Fixpoint for_of (files : list Dirent) (st : Scan) : Scan * option string :=
  match files with
  | [] => (st, None)
  | file :: rest =>
      match body file st with
      | (st', Some m) => (st', Some m)
      | (st', None) =>
          if 20 <=? Z.of_nat (length (results st'))
          then (st', None)
          else for_of rest st'
      end
  end.
End Loop.

(** [scanDirectory(dir)], where [d] is what lies at [dir]. *)
Fixpoint scanDirectory (dir : Path) (d : Dirent) (st : Scan) {struct d}
  : Scan * option string :=
  match d with
  | Directory _ files =>
      for_of
        (fun file st =>
           let fullPath := path_join dir (dirent_name file) in
           match file with
           | File fname contents stat =>
               (scan_file fullPath fname contents stat st, None)
           | _ =>
               if negb (skipped (dirent_name file))
               then scanDirectory fullPath file st
               else (st, None)
           end)
        files st
  | Locked _ m => (st, Some m)
  | File _ _ _ => (st, Some "ENOTDIR: not a directory, scandir")
  end.

(** The scan the handler starts: [scanDirectory(directory)] on empty
    [results] and zeroed counters; [root] is what lies at [directory]. *)
Definition search (directory : string) (root : Dirent) : Scan * option string :=
  scanDirectory [directory] root scan_start.

End Search.

(** [results.sort((a, b) => b.lastModified - a.lastModified)]: newest
    first, equal times in their order of discovery. *)
Fixpoint insert_by_time (x : Found) (l : list Found) : list Found :=
  match l with
  | [] => [x]
  | y :: r =>
      if lastModified y <? lastModified x
      then x :: y :: r
      else y :: insert_by_time x r
  end.

Definition sort_by_time (l : list Found) : list Found :=
  foldr insert_by_time [] (rev l).

(** [results.length]. *)
Definition count (st : Scan) : Z := Z.of_nat (length (results st)).

(** A result found below [dir] without entering a skipped directory: its
    path leads from [dir] through directories of other names to the
    file. *)
Definition reached_from (dir : Path) (r : Found) : Prop :=
  ∃ mids : list string,
    found_path r = dir ++ mids ++ [found_name r]
    ∧ Forall (fun n => skipped n = false) mids.

(** The tree with every skipped sub-directory emptied. *)
Fixpoint hide (d : Dirent) : Dirent :=
  match d with
  | Directory n files =>
      Directory n
        (map (fun file =>
                if isDirectory file && skipped (dirent_name file)
                then Directory (dirent_name file) []
                else hide file)
             files)
  | _ => d
  end.

End FileSearch.

(** ** Tool results, arguments and schemas *)

Module Tools.
Import Js.

Definition ESC : string := String (ascii_of_nat 27) "".
Definition NL : string := String (ascii_of_nat 10) "".
Definition BACKSLASH : string := String (ascii_of_nat 92) "".

(** The [FORMAT] table of [registerTools]. *)
Module FORMAT.
Definition RESET : string := ESC +:+ "[0m".
Definition BOLD : string := ESC +:+ "[1m".
Definition GREEN : string := ESC +:+ "[32m".
Definition CYAN : string := ESC +:+ "[36m".
Definition HYPERLINK (url text : string) : string :=
  ESC +:+ "]8;;" +:+ url +:+ ESC +:+ BACKSLASH +:+ text
      +:+ ESC +:+ "]8;;" +:+ ESC +:+ BACKSLASH.
End FORMAT.

(** A content block [{ type: 'text', text }] and the [content] array of a
    tool result. *)
Record ContentBlock := { type : string; text : string }.
Abbreviation ToolResult := (list ContentBlock).

Definition text_block (t : string) : ContentBlock := {| type := "text"; text := t |}.

(** Argument values as they arrive in a tool call. *)
Inductive Value :=
| VNumber (z : Z)
| VString (s : string)
| VArray (l : list Value).

Abbreviation Args := (gmap string Value).

(** The zod shapes of the input schemas: [z.number()], [z.string()],
    [z.array(z.string())], [z.enum([...])], with [.optional()],
    [.default(v)] and [.describe(text)]. *)
Inductive Kind :=
| KNumber
| KString
| KArrayOfString
| KEnum (options : list string).

(** What parsing does with an absent key: the outermost of [.optional()]
    and [.default(v)] decides. *)
Inductive Missing :=
| Required
| Optional
| Default (v : Value).

Record Field := {
  kind : Kind;
  missing : Missing;
  describe : string
}.

Abbreviation Shape := (list (string * Field)).

Definition z_number : Field :=
  {| kind := KNumber; missing := Required; describe := "" |}.
Definition z_string : Field :=
  {| kind := KString; missing := Required; describe := "" |}.
Definition z_array_string : Field :=
  {| kind := KArrayOfString; missing := Required; describe := "" |}.
Definition z_enum (options : list string) : Field :=
  {| kind := KEnum options; missing := Required; describe := "" |}.
Definition z_optional (f : Field) : Field :=
  {| kind := kind f; missing := Optional; describe := describe f |}.
Definition z_default (v : Value) (f : Field) : Field :=
  {| kind := kind f; missing := Default v; describe := describe f |}.
Definition z_describe (d : string) (f : Field) : Field :=
  {| kind := kind f; missing := missing f; describe := d |}.

Record ToolDescriptor := {
  name : string;
  description : string;
  inputSchema : Shape
}.

(** *** What the handlers receive from outside the repository

    Every awaited call into a third-party service resolves or rejects;
    the payloads keep the fields the handlers read. A rejection stands
    for any exception raised while the reply is obtained and decoded. *)

Definition DQ : string := String (ascii_of_nat 34) "".

Record NewsItem := { item_title : string; item_link : string }.

Inductive WikiResponse :=
| WikiNotOk (statusText : string)
| WikiPage (title extract articleUrl : string).

Inductive GithubResponse :=
| GithubNotOk (status : Z) (statusText : string)
| GithubRepo (full_name : string) (repo_description : option string)
    (stargazers_count forks_count open_issues_count : Z) (html_url : string).

Record Movie := {
  Title : string; Year : string; Genre : string; Director : string;
  Actors : string; Runtime : string;
  imdbRating : option string; imdbVotes : string;
  Ratings : list (string * string);
  Plot : string;
  Rated : option string; Released : option string;
  Awards : option string; BoxOffice : option string;
  imdbID : option string
}.

Inductive MovieResponse :=
| MovieNotOk (status : Z) (statusText : string)
| MovieNotFound
| MovieData (data : Movie).

Inductive DictResponse :=
| DictNotOk
| DictEntry (definition example : option string).

Record World := {
  (** [encodeURIComponent]: throws [URIError] on a lone surrogate. *)
  encodeURIComponent : string -> Outcome string;
  (** The items of the RSS feed fetched from a URL and parsed. *)
  google_news : string -> Outcome (list NewsItem);
  (** [twitterClient.v2.tweet(status)], resolved to [tweet.data.id]. *)
  twitter_tweet : string -> Outcome string;
  wikipedia : string -> Outcome WikiResponse;
  github : string -> Outcome GithubResponse;
  omdb : string -> Outcome MovieResponse;
  dictionary : string -> Outcome DictResponse;
  (** [process.env.OMDB_API_KEY], as a template literal renders it. *)
  OMDB_API_KEY : string;
  (** [Math.round(parseFloat(text))]; [None] is [NaN]. *)
  round_rating : string -> option Z;
  (** What lies at a path of the local file system; a rejection is a
      throwing [fs.statSync]. *)
  file_system : string -> Outcome FileSearch.Dirent;
  (** [formatFileSize] (logarithms and [toFixed] on doubles) and
      [Date.prototype.toISOString] cut to seconds. *)
  formatFileSize : Z -> string;
  toISOString : Z -> string;
  (** The direct [eval] of the truth-table handler. *)
  eval : string -> TruthTable.Row -> TruthTable.Run (bool * TruthTable.Row)
}.

(** A registered callback: [async (arg) => { ... }]. It is invoked on
    arguments that passed the input schema; the last branch of each
    handler below stands for argument objects outside the schema, which
    the handler never sees. *)
Abbreviation Handler := (Args -> World -> Outcome ToolResult).

Definition outside_schema : Outcome ToolResult :=
  Rejected "arguments outside the input schema".

(** [typeof item === 'string'] and the string of a value. *)
Definition is_string (v : Value) : bool :=
  match v with VString _ => true | _ => false end.

Definition string_of (v : Value) : string :=
  match v with VString s => s | _ => "" end.

(** *** [print-menu] *)
Definition print_menu : Handler := fun arg _ =>
  match arg !! "title" with
  | (None | Some (VString _)) as title =>
      match arg !! "items" with
      | Some (VArray items) =>
          if forallb is_string items
          then
            let header :=
              match title with
              | Some (VString t) => if truthy t then t +:+ NL +:+ NL else NL +:+ NL
              | _ => NL +:+ NL
              end in
            let menuText :=
              join NL (imap (fun index item =>
                               FORMAT.BOLD +:+ "(" +:+ num (Z.of_nat index + 1) +:+ ")"
                               +:+ FORMAT.RESET +:+ " " +:+ FORMAT.CYAN
                               +:+ string_of item +:+ FORMAT.RESET) items) in
            Resolved [text_block (header +:+ menuText)]
          else Resolved [text_block ("Error: Menu items must be an array of strings." +:+ NL)]
      | _ => Resolved [text_block ("Error: Menu items must be an array of strings." +:+ NL)]
      end
  | _ => outside_schema
  end.

(** *** [news-by-topic] *)
Definition news_by_topic : Handler := fun arg w =>
  match arg !! "topic" with
  | Some (VString topic) =>
      match encodeURIComponent w topic with
      | Rejected m => Rejected m
      | Resolved query =>
          let rssUrl := "https://news.google.com/rss/search?q=" +:+ query in
          match google_news w rssUrl with
          | Resolved feed =>
              let items := take 5 feed in
              if bool_decide (length items = 0%nat)
              then Resolved [text_block ("❌ No recent news found for topic: " +:+ DQ
                                          +:+ topic +:+ DQ +:+ ".")]
              else
                let formattedNews :=
                  join NL (imap (fun index item =>
                                   FORMAT.BOLD +:+ "[" +:+ num (Z.of_nat index + 1) +:+ "]"
                                   +:+ FORMAT.RESET +:+ " " +:+ item_title item +:+ " "
                                   +:+ FORMAT.GREEN
                                   +:+ FORMAT.HYPERLINK (item_link item) "Read more"
                                   +:+ FORMAT.RESET) items) in
                Resolved [text_block ("Top News for " +:+ DQ +:+ topic +:+ DQ +:+ ":"
                                       +:+ NL +:+ NL +:+ formattedNews)]
          | Rejected _ =>
              Resolved [text_block "⚠️ Failed to retrieve news. Please try again later."]
          end
      end
  | _ => outside_schema
  end.

(** *** [adder] (the same handler in tools.js and tools-basic.js) *)
Definition adder : Handler := fun arg _ =>
  match arg !! "a", arg !! "b" with
  | Some (VNumber a), Some (VNumber b) =>
      Resolved
        [text_block (FORMAT.GREEN +:+ "Result:" +:+ FORMAT.RESET +:+ " The sum of "
                     +:+ FORMAT.BOLD +:+ num a +:+ FORMAT.RESET +:+ " and "
                     +:+ FORMAT.BOLD +:+ num b +:+ FORMAT.RESET +:+ " is "
                     +:+ FORMAT.CYAN +:+ num (a + b) +:+ FORMAT.RESET +:+ "." +:+ NL)]
  | _, _ => outside_schema
  end.

(** *** [createPost] (twitter.tool.js) and [twitter-X-post] *)
Definition createPost (status : string) (w : World) : ToolResult :=
  match twitter_tweet w status with
  | Resolved id => [text_block ("Tweet sent successfully: " +:+ id)]
  | Rejected message => [text_block ("Error sending tweet: " +:+ message)]
  end.

Definition twitter_X_post : Handler := fun arg w =>
  match arg !! "status" with
  | Some (VString status) =>
      let result := createPost status w in
      match result with
      | first :: _ =>
          Resolved [text_block (FORMAT.GREEN +:+ FORMAT.BOLD
                                +:+ "Tweet created successfully:" +:+ FORMAT.RESET
                                +:+ " " +:+ text first +:+ NL)]
      | [] =>
          Resolved [text_block ("⚠️ Error creating tweet: "
                                +:+ "Cannot read properties of undefined (reading 'text')")]
      end
  | _ => outside_schema
  end.

(** *** [wikipedia-search] *)
Definition wikipedia_search : Handler := fun arg w =>
  match arg !! "query" with
  | Some (VString query) =>
      match encodeURIComponent w query with
      | Rejected m => Rejected m
      | Resolved encodedQuery =>
          let url := "https://en.wikipedia.org/api/rest_v1/page/summary/" +:+ encodedQuery in
          match wikipedia w url with
          | Resolved (WikiNotOk _) =>
              Resolved [text_block ("Error: Failed to fetch Wikipedia summary for " +:+ DQ
                                    +:+ query +:+ DQ +:+ "." +:+ NL)]
          | Resolved (WikiPage title extract articleUrl) =>
              Resolved [text_block (FORMAT.GREEN +:+ FORMAT.BOLD +:+ title +:+ FORMAT.RESET
                                    +:+ NL +:+ NL +:+ extract +:+ NL +:+ NL
                                    +:+ FORMAT.HYPERLINK articleUrl "Read more on Wikipedia")]
          | Rejected _ =>
              Resolved [text_block "An error occurred while trying to fetch Wikipedia data."]
          end
      end
  | _ => outside_schema
  end.

(** *** [github-repo-info] *)
Definition github_repo_info : Handler := fun arg w =>
  match arg !! "owner", arg !! "repo" with
  | Some (VString owner), Some (VString repo) =>
      let url := "https://api.github.com/repos/" +:+ owner +:+ "/" +:+ repo in
      let failed :=
        Resolved [text_block ("Failed to fetch repository info for " +:+ owner
                              +:+ "/" +:+ repo)] in
      match github w url with
      | Resolved (GithubNotOk _ _) => failed
      | Resolved (GithubRepo full_name descr stars forks issues html_url) =>
          let shown :=
            match descr with
            | Some d => if truthy d then d else "No description"
            | None => "No description"
            end in
          Resolved [text_block (
            FORMAT.GREEN +:+ FORMAT.BOLD +:+ "📦 Repository Name:" +:+ FORMAT.RESET +:+ " "
              +:+ FORMAT.CYAN +:+ full_name +:+ FORMAT.RESET +:+ NL +:+ NL
            +:+ FORMAT.GREEN +:+ "📝 Description:" +:+ FORMAT.RESET +:+ " " +:+ shown +:+ NL
            +:+ FORMAT.GREEN +:+ "⭐ Stars:" +:+ FORMAT.RESET +:+ " " +:+ num stars +:+ NL
            +:+ FORMAT.GREEN +:+ "🍴 Forks:" +:+ FORMAT.RESET +:+ " " +:+ num forks +:+ NL
            +:+ FORMAT.GREEN +:+ "🚩 Open Issues:" +:+ FORMAT.RESET +:+ " " +:+ num issues +:+ NL
            +:+ FORMAT.GREEN +:+ "🔗 Repository Link:" +:+ FORMAT.RESET +:+ " "
              +:+ FORMAT.HYPERLINK html_url html_url)]
      | Rejected _ => failed
      end
  | _, _ => outside_schema
  end.

(** *** [movie-ratings] *)
Definition when (o : option string) (f : string -> string) : string :=
  match o with
  | Some v => if truthy v then f v else ""
  | None => ""
  end.

Definition not_NA (v : string) (f : string -> string) : string :=
  if bool_decide (v = "N/A") then "" else f v.

(** The text built from a found title; [None] when [String.prototype.repeat]
    throws its [RangeError] on a negative count. *)
Definition movie_text (w : World) (data : Movie) : option string :=
  let rating_line :=
    match imdbRating data with
    | Some r =>
        if truthy r
        then
          match round_rating w r with
          | Some count =>
              if count <? 0 then None
              else Some (FORMAT.BOLD +:+ "IMDB:" +:+ FORMAT.RESET +:+ " " +:+ r +:+ "/10 "
                         +:+ repeat "⭐" (Z.to_nat count) +:+ " (" +:+ imdbVotes data
                         +:+ " votes)" +:+ NL)
          | None =>
              Some (FORMAT.BOLD +:+ "IMDB:" +:+ FORMAT.RESET +:+ " " +:+ r +:+ "/10 "
                    +:+ " (" +:+ imdbVotes data +:+ " votes)" +:+ NL)
          end
        else Some ""
    | None => Some ""
    end in
  match rating_line with
  | None => None
  | Some rating_line =>
      Some (
        FORMAT.BOLD +:+ FORMAT.GREEN +:+ "🎬 " +:+ Title data +:+ " (" +:+ Year data +:+ ")"
          +:+ FORMAT.RESET +:+ NL +:+ NL
        +:+ FORMAT.BOLD +:+ "Genre:" +:+ FORMAT.RESET +:+ " " +:+ Genre data +:+ NL
        +:+ FORMAT.BOLD +:+ "Director:" +:+ FORMAT.RESET +:+ " " +:+ Director data +:+ NL
        +:+ FORMAT.BOLD +:+ "Starring:" +:+ FORMAT.RESET +:+ " " +:+ Actors data +:+ NL
        +:+ FORMAT.BOLD +:+ "Runtime:" +:+ FORMAT.RESET +:+ " " +:+ Runtime data +:+ NL +:+ NL
        +:+ FORMAT.BOLD +:+ FORMAT.CYAN +:+ "⭐ RATINGS" +:+ FORMAT.RESET +:+ NL +:+ NL
        +:+ rating_line
        +:+ String.concat ""
              (map (fun rating : string * string =>
                      if bool_decide (rating.1 = "Internet Movie Database") then ""
                      else FORMAT.BOLD +:+ rating.1 +:+ ":" +:+ FORMAT.RESET +:+ " "
                           +:+ rating.2 +:+ NL)
                   (Ratings data))
        +:+ NL +:+ FORMAT.BOLD +:+ FORMAT.CYAN +:+ " PLOT: " +:+ FORMAT.RESET
        +:+ Plot data +:+ NL +:+ NL
        +:+ FORMAT.BOLD +:+ FORMAT.CYAN +:+ " ADDITIONAL INFO" +:+ FORMAT.RESET +:+ NL +:+ NL
        +:+ when (Rated data)
              (fun v => FORMAT.BOLD +:+ "Rated:" +:+ FORMAT.RESET +:+ " " +:+ v +:+ NL)
        +:+ when (Released data)
              (fun v => FORMAT.BOLD +:+ "Released:" +:+ FORMAT.RESET +:+ " " +:+ v +:+ NL)
        +:+ when (Awards data)
              (fun v => not_NA v (fun v =>
                 FORMAT.BOLD +:+ "Awards:" +:+ FORMAT.RESET +:+ " " +:+ v +:+ NL))
        +:+ when (BoxOffice data)
              (fun v => not_NA v (fun v =>
                 FORMAT.BOLD +:+ "Box Office:" +:+ FORMAT.RESET +:+ " " +:+ v +:+ NL))
        +:+ when (imdbID data)
              (fun v => NL +:+ FORMAT.HYPERLINK ("https://www.imdb.com/title/" +:+ v)
                                                "View on IMDB"))
  end.

Definition movie_ratings : Handler := fun arg w =>
  match arg !! "title", arg !! "year", arg !! "plot" with
  | Some (VString title), (None | Some (VNumber _)) as year,
    (None | Some (VString _)) as plot =>
      match encodeURIComponent w title with
      | Rejected m => Rejected m
      | Resolved encodedTitle =>
          let plot_text :=
            match plot with
            | Some (VString p) => if truthy p then p else "short"
            | _ => "short"
            end in
          let year_number :=
            match year with
            | Some (VNumber y) => if Boolean y then Some y else None
            | _ => None
            end in
          let queryUrl :=
            "http://www.omdbapi.com/?apikey=" +:+ OMDB_API_KEY w +:+ "&t=" +:+ encodedTitle
            +:+ "&plot=" +:+ plot_text
            +:+ match year_number with Some y => "&y=" +:+ num y | None => "" end in
          let failed :=
            Resolved [text_block
              "⚠️ Failed to retrieve movie information. Please try again later."] in
          match omdb w queryUrl with
          | Resolved (MovieNotOk _ _) => failed
          | Resolved MovieNotFound =>
              Resolved [text_block (
                FORMAT.BOLD +:+ FORMAT.RESET +:+ " Sorry, couldn't find information for "
                +:+ DQ +:+ title +:+ DQ
                +:+ match year_number with Some y => " (" +:+ num y +:+ ")" | None => "" end
                +:+ ".")]
          | Resolved (MovieData data) =>
              match movie_text w data with
              | Some resultText => Resolved [text_block resultText]
              | None => failed
              end
          | Rejected _ => failed
          end
      end
  | _, _, _ => outside_schema
  end.


(** *** [define_word]: no [try] around the fetch. *)
Definition define_word : Handler := fun arg w =>
  match arg !! "word" with
  | Some (VString word) =>
      match dictionary w ("https://api.dictionaryapi.dev/api/v2/entries/en/" +:+ word) with
      | Rejected m => Rejected m
      | Resolved DictNotOk =>
          Resolved [text_block ("❌ No definition found for " +:+ DQ +:+ word +:+ DQ +:+ ".")]
      | Resolved (DictEntry definition example) =>
          Resolved
            [text_block ("📖 Definition of " +:+ word +:+ ": "
                         +:+ default "No definition available." definition);
             text_block ("💡 Example: " +:+ default "No example provided." example)]
      end
  | _ => outside_schema
  end.

(** *** [local-file-search] *)
Definition file_type_of (s : string) : option FileSearch.FileType :=
  if bool_decide (s = "all") then Some FileSearch.all
  else if bool_decide (s = "name") then Some FileSearch.name
  else if bool_decide (s = "extension") then Some FileSearch.extension
  else if bool_decide (s = "content") then Some FileSearch.content
  else None.

(** [iso.replace('T', ' ').substr(0, 19)]. *)
Fixpoint replace_T (s : string) : string :=
  match s with
  | EmptyString => EmptyString
  | String c r => if bool_decide (c = "T"%char) then String " "%char r
                  else String c (replace_T r)
  end.

Definition padStart2 (s : string) : string :=
  repeat " " (2 - String.length s) +:+ s.

Definition file_line (w : World) (index : nat) (file : FileSearch.Found) : string :=
  let fname := FileSearch.found_name file in
  let fileName :=
    if (25 <? String.length fname)%nat
    then String.substring 0 20 fname +:+ "..." else fname in
  let padding := repeat " " (Nat.max 1 (25 - String.length fileName)) in
  let size := formatFileSize w (FileSearch.found_size file) in
  let sizePadding := repeat " " (Nat.max 1 (12 - String.length size)) in
  let lastModified :=
    String.substring 0 19 (replace_T (toISOString w (FileSearch.lastModified file))) in
  let indexStr := padStart2 (num (Z.of_nat index + 1)) in
  FORMAT.BOLD +:+ indexStr +:+ ")" +:+ FORMAT.RESET +:+ " " +:+ FORMAT.GREEN
    +:+ FORMAT.BOLD +:+ fileName +:+ FORMAT.RESET +:+ padding +:+ size +:+ sizePadding
    +:+ lastModified +:+ NL.

Definition local_file_search : Handler := fun arg w =>
  match arg !! "searchTerm", arg !! "directory", arg !! "fileType" with
  | Some (VString searchTerm), Some (VString directory), Some (VString fileTypeText) =>
      match file_type_of fileTypeText with
      | None => outside_schema
      | Some fileType =>
          match file_system w directory with
          | Rejected _ =>
              Resolved [text_block ("❌ Error: Directory " +:+ DQ +:+ directory +:+ DQ
                                    +:+ " not found or inaccessible.")]
          | Resolved root =>
              if negb (FileSearch.isDirectory root)
              then Resolved [text_block ("❌ Error: " +:+ DQ +:+ directory +:+ DQ
                                         +:+ " is not a valid directory.")]
              else
                match FileSearch.search searchTerm fileType directory root with
                | (_, Some message) =>
                    Resolved [text_block ("⚠️ An error occurred during the file search: "
                                          +:+ message)]
                | (st, None) =>
                    let results := FileSearch.results st in
                    let scannedFiles := FileSearch.scannedFiles st in
                    let matchedFiles := FileSearch.matchedFiles st in
                    if bool_decide (length results = 0%nat)
                    then
                      Resolved [text_block (
                        FORMAT.CYAN +:+ FORMAT.BOLD +:+ "File Search Results" +:+ FORMAT.RESET
                          +:+ NL +:+ NL
                        +:+ "No files found matching " +:+ DQ +:+ searchTerm +:+ DQ +:+ " in "
                          +:+ directory +:+ NL
                        +:+ "Search type: " +:+ fileTypeText +:+ NL
                        +:+ "Files scanned: " +:+ num scannedFiles)]
                    else
                      let sorted := FileSearch.sort_by_time results in
                      Resolved [text_block (
                        FORMAT.CYAN +:+ FORMAT.BOLD +:+ "File Search Results" +:+ FORMAT.RESET
                          +:+ NL +:+ NL
                        +:+ "Search term: " +:+ DQ +:+ searchTerm +:+ DQ +:+ NL
                        +:+ "Directory: " +:+ directory +:+ NL
                        +:+ "Search type: " +:+ fileTypeText +:+ NL
                        +:+ "Files scanned: " +:+ num scannedFiles +:+ NL
                        +:+ "Matches found: " +:+ num matchedFiles
                          +:+ (if Z.of_nat (length sorted) <? matchedFiles
                               then " (showing first " +:+ num (Z.of_nat (length sorted)) +:+ ")"
                               else "")
                          +:+ NL +:+ NL
                        +:+ FORMAT.BOLD +:+ "Filename" +:+ repeat " " 22 +:+ "Size"
                          +:+ repeat " " 10 +:+ "Last Modified" +:+ FORMAT.RESET +:+ NL
                        +:+ repeat "─" 80 +:+ NL
                        +:+ String.concat "" (imap (file_line w) sorted))]
                end
          end
      end
  | _, _, _ => outside_schema
  end.

(** *** [truth_table] *)

(** The text of the table: the header over [vars] and one line per row
    of the table, [T] or [F] for each variable and for the result. *)
Definition table_text (vars : list ascii) (table : list (TruthTable.Row * bool)) : string :=
  let header :=
    join " | " (map (fun v => String v "") vars) +:+ " | Result" +:+ NL
    +:+ repeat "-" (length vars * 4 + 10) +:+ NL in
  let body :=
    join NL
      (map (fun row : TruthTable.Row * bool =>
              join "   " (map (fun v => if default false (row.1 !! v)
                                        then "T" else "F") vars)
              +:+ " |   " +:+ (if row.2 then "T" else "F"))
           table) in
  FORMAT.GREEN +:+ "Truth Table:" +:+ FORMAT.RESET +:+ NL
  +:+ FORMAT.BOLD +:+ header +:+ body +:+ FORMAT.RESET +:+ NL.

(** The [catch] block reads [e.message]: when that read throws, the
    handler throws. *)
Definition truth_table : Handler := fun arg w =>
  match arg !! "expression" with
  | Some (VString expression) =>
      let vars := TruthTable.extractVariables expression in
      let combinations := TruthTable.generateCombinations vars in
      match TruthTable.build_table (eval w) expression combinations with
      | TruthTable.Done table => Resolved [text_block (table_text vars table)]
      | TruthTable.Raised (Resolved message) =>
          Resolved [text_block (FORMAT.BOLD +:+ "Error:" +:+ FORMAT.RESET
                                +:+ " Invalid boolean expression. " +:+ message)]
      | TruthTable.Raised (Rejected m) => Rejected m
      | TruthTable.Tampered (Resolved t) => Resolved [text_block t]
      | TruthTable.Tampered (Rejected m) => Rejected m
      end
  | _ => outside_schema
  end.

End Tools.

(** ** The tool registry of the server object *)

Module Mcp.
Import Js Tools.

(** The SDK's [McpServer] ([server.tool], the tool-list query and the
    tool-call path) is imported by the repository and not part of it; the
    definitions of this module follow sections 4.1 and 4.3 of the
    specification. *)

(** Modelled from the spec: an entry of the registry, a descriptor with
    its handler; the registry keeps its entries in registration order. *)
Record Tool := { descriptor : ToolDescriptor; handler : Handler }.

Abbreviation Registry := (list Tool).

(** Modelled from the spec: [resolve(name)], section 4.1. *)
Definition resolve (reg : Registry) (n : string) : option Tool :=
  List.find (fun t => bool_decide (name (descriptor t) = n)) reg.

(** Modelled from the spec: [register(descriptor, handler)], section 4.1:
    it fails with [DuplicateToolName] if the name is already present. *)
Definition register (reg : Registry) (d : ToolDescriptor) (h : Handler)
  : Outcome Registry :=
  match resolve reg (name d) with
  | Some _ => Rejected ("DuplicateToolName: " +:+ name d)
  | None => Resolved (reg ++ [{| descriptor := d; handler := h |}])
  end.

(** Modelled from the spec: [list()], section 4.1: the descriptors in
    registration order. *)
Definition list_tools (reg : Registry) : list ToolDescriptor :=
  map descriptor reg.

(** Registration of a sequence of tools, in order. *)
Fixpoint register_all (tools : list Tool) (reg : Registry) : Outcome Registry :=
  match tools with
  | [] => Resolved reg
  | t :: rest =>
      match register reg (descriptor t) (handler t) with
      | Resolved reg' => register_all rest reg'
      | Rejected m => Rejected m
      end
  end.

(** Modelled from the spec: [server.tool(name, description, shape,
    callback)] registers the descriptor built from its arguments. *)
Definition tool (n d : string) (shape : Shape) (cb : Handler) (server : Registry)
  : Outcome Registry :=
  register server {| name := n; description := d; inputSchema := shape |} cb.

(** Sequencing of calls that may throw. *)
Definition and_then {A B : Type} (o : Outcome A) (k : A -> Outcome B) : Outcome B :=
  match o with
  | Resolved a => k a
  | Rejected m => Rejected m
  end.

(** Modelled from the spec: a value is of the declared type. *)
Definition has_kind (k : Kind) (v : Value) : bool :=
  match k, v with
  | KNumber, VNumber _ => true
  | KString, VString _ => true
  | KArrayOfString, VArray l => forallb is_string l
  | KEnum options, VString s => bool_decide (s ∈ options)
  | _, _ => false
  end.

(** Modelled from the spec: argument validation, section 4.3 steps 2 and
    3. Every required field is present and of the declared type, unknown
    fields are ignored, a mismatch is a [ValidationError], defaults are
    applied to absent fields. *)
Fixpoint validate (shape : Shape) (args : Args) : Outcome Args :=
  match shape with
  | [] => Resolved ∅
  | (key, field) :: rest =>
      and_then (validate rest args) (fun out =>
        match args !! key with
        | Some v =>
            if has_kind (kind field) v then Resolved (<[key := v]> out)
            else Rejected ("ValidationError: " +:+ key)
        | None =>
            match missing field with
            | Required => Rejected ("ValidationError: " +:+ key)
            | Optional => Resolved out
            | Default v => Resolved (<[key := v]> out)
            end
        end)
  end.

(** Modelled from the spec: the tool-call path, section 4.3. An unknown
    tool and a validation failure are answered with a failure content
    block; the handler's content is passed on verbatim; a failure of the
    handler is captured here and answered with a single text block
    holding its message. *)
Definition callTool (reg : Registry) (n : string) (args : Args) (w : World)
  : ToolResult :=
  match resolve reg n with
  | None => [text_block ("Tool " +:+ n +:+ " not found")]
  | Some t =>
      match validate (inputSchema (descriptor t)) args with
      | Rejected m => [text_block m]
      | Resolved validated =>
          match handler t validated w with
          | Resolved content => content
          | Rejected m => [text_block m]
          end
      end
  end.


End Mcp.

(** ** [registerTools] of server/tools.js *)

Module ToolsJs.
Import Js Tools Mcp.

Definition registerTools (server : Registry) : Outcome Registry :=
  and_then (tool "print-menu"
    "Prints what can the MCP server do with the available tools, gives description of tools (apart from printing this menu)"
    [("title", z_describe "Optional title for the menu" (z_optional z_string));
     ("items", z_describe "List of tool descriptions to display" z_array_string)]
    print_menu server) (fun server =>
  and_then (tool "news-by-topic"
    "Fetches recent news headlines for a given topic using Google News"
    [("topic", z_describe "The topic to search news for (e.g., AI, economy, cricket)" z_string)]
    news_by_topic server) (fun server =>
  and_then (tool "adder"
    "Add two numbers together"
    [("a", z_describe "The first number" z_number);
     ("b", z_describe "The second number" z_number)]
    adder server) (fun server =>
  and_then (tool "twitter-X-post"
    "Create and post a tweet on X formally known as Twitter"
    [("status", z_describe "The content of the tweet" z_string)]
    twitter_X_post server) (fun server =>
  and_then (tool "wikipedia-search"
    "Search Wikipedia and return the summary of the top result"
    [("query", z_describe "The search term for Wikipedia" z_string)]
    wikipedia_search server) (fun server =>
  and_then (tool "github-repo-info"
    "Fetch information about a public GitHub repository"
    [("owner", z_describe "GitHub username or organization" z_string);
     ("repo", z_describe "Repository name" z_string)]
    github_repo_info server) (fun server =>
  and_then (tool "movie-ratings"
    "Get ratings and information for movies or TV shows from various sources"
    [("title", z_describe "The title of the movie or TV show to search for" z_string);
     ("year", z_describe "Optional: Release year to narrow down search results"
                (z_optional z_number));
     ("plot", z_describe "Optional: Length of plot summary (short or full)"
                (z_optional (z_default (VString "short") (z_enum ["short"; "full"]))))]
    movie_ratings server) (fun server =>
  and_then (tool "local-file-search"
    "Find files on the local system based on name/extension/content"
    [("searchTerm", z_describe "Term to search for in filenames or content" z_string);
     ("directory", z_describe "Directory to search in (defaults to current directory)"
                     (z_default (VString "./") z_string));
     ("fileType", z_describe "Type of search"
                    (z_default (VString "all")
                       (z_enum ["all"; "name"; "extension"; "content"])))]
    local_file_search server) (fun server =>
  and_then (tool "truth_table"
    "Generate the truth table of a boolean expression (e.g., A && !B || C)"
    [("expression",
      z_describe "Boolean expression using variables like A, B, C and operators like &&, ||, !"
        z_string)]
    truth_table server) (fun server =>
  tool "define_word"
    "Get the definition and example usage of a word"
    [("word", z_describe "Word to define" z_string)]
    define_word server))))))))).

End ToolsJs.

(** ** [registerTools] of server/tools-basic.js *)

Module ToolsBasicJs.
Import Js Tools Mcp.

Definition registerTools (server : Registry) : Outcome Registry :=
  tool "adder"
    "Add two numbers together"
    [("a", z_describe "The first number" z_number);
     ("b", z_describe "The second number" z_number)]
    adder server.

End ToolsBasicJs.

(** ** The dispatcher and its session table (server/index.js) *)

Module Index.
Import Js Tools Mcp.

(** The names every object literal inherits from [Object.prototype]:
    [transports] is created as [{}], and [transports[key]] finds them. *)
Definition Object_prototype : list string :=
  ["constructor"; "__defineGetter__"; "__defineSetter__"; "hasOwnProperty";
   "__lookupGetter__"; "__lookupSetter__"; "isPrototypeOf";
   "propertyIsEnumerable"; "toString"; "valueOf"; "__proto__"; "toLocaleString"].

(** [req.body] as the dispatcher and the session tell bodies apart. *)
Inductive Body :=
| Initialize
| ToolsList
| ToolsCall (tool_name : string) (arguments : Args)
| OtherBody.

Definition isInitializeRequest (body : Body) : bool :=
  match body with Initialize => true | _ => false end.

Inductive Method := POST | GET | DELETE.

(** A request: [req.headers['mcp-session-id']] and [req.body]. *)
Record Request := { mcp_session_id : option string; body : Body }.

(** A transport object. [sessionId] is [undefined] until the handshake;
    [closed] records that the transport has closed and its [onclose]
    callback has run. *)
Record Transport := { sessionId : option string; closed : bool }.

(** The process state: the [transports] table, which holds references
    to transport objects, the objects themselves in order of creation,
    and the [server] with its registered tools. *)
Record State := {
  transports : gmap string nat;
  heap : list Transport;
  server : Registry
}.

(** What a request finds outside the process: the value the next
    [randomUUID()] returns and the services the tools call. *)
Record Env := { randomUUID : string; world : World }.

(** [transports[key]]: an own property, an inherited one, or [undefined]. *)
Inductive Looked :=
| Own (transport : nat)
| Inherited
| Undefined.

Definition get (table : gmap string nat) (key : string) : Looked :=
  match table !! key with
  | Some r => Own r
  | None => if bool_decide (key ∈ Object_prototype) then Inherited else Undefined
  end.

(** The answer of a session to a forwarded request. *)
Inductive Reply :=
| Initialized (sid : string)
| Tools (descriptors : list ToolDescriptor)
| Called (result : ToolResult)
| Terminated
| Processed.

(** The JSON body of the dispatcher's rejection. *)
Record Envelope := {
  jsonrpc : string;
  error_code : Z;
  error_message : string;
  id : option Z
}.

Inductive Payload :=
| JsonBody (e : Envelope)
| TextBody (t : string).

(** The outcome of a route: a response written by the route itself, a
    request handled by a transport, or an exception out of the route. *)
Inductive Response :=
| Respond (status : Z) (payload : Payload)
| Handled (transport : nat) (reply : Reply)
| Threw (message : string).

(** [onsessioninitialized: (sid) => { transports[sid] = transport; }]. *)
Definition onsessioninitialized (transport : nat) (sid : string) (st : State) : State :=
  {| transports := <[sid := transport]> (transports st);
     heap := heap st; server := server st |}.

(** [transport.onclose = () => { if (transport.sessionId) delete
    transports[transport.sessionId]; }]. *)
Definition onclose (transport : nat) (st : State) : State :=
  match heap st !! transport with
  | Some t =>
      match sessionId t with
      | Some sid =>
          if truthy sid
          then {| transports := delete sid (transports st);
                  heap := heap st; server := server st |}
          else st
      | None => st
      end
  | None => st
  end.

(** The SDK's [StreamableHTTPServerTransport] is imported by the
    repository and not part of it; the three definitions below follow
    section 4.2 of the specification. *)

(** Modelled from the spec: a field update of one transport object. *)
Definition set_transport (transport : nat) (t : Transport) (st : State) : State :=
  {| transports := transports st;
     heap := <[transport := t]> (heap st); server := server st |}.

(** Modelled from the spec: the transport closes, section 4.2: the
    session is marked closed and the registered cleanup, [onclose] of
    index.js, is invoked. *)
Definition close (transport : nat) (st : State) : State :=
  match heap st !! transport with
  | Some t =>
      onclose transport
        (set_transport transport {| sessionId := sessionId t; closed := true |} st)
  | None => st
  end.

(** Modelled from the spec: [transport.handleRequest], section 4.2. The
    handshake gives the session its new id, from [sessionIdGenerator]
    (which index.js sets to [randomUUID]), and reports it through
    [onsessioninitialized]; an explicit termination request closes the
    transport; any other message is processed without a change of the
    table, a tool-list query and a tool call through the registry. The
    first branch is a reference to no object, which the routes never
    pass. *)
Definition handleRequest (transport : nat) (method : Method) (body : Body)
    (env : Env) (st : State) : Response * State :=
  match heap st !! transport with
  | None => (Threw "no such transport", st)
  | Some t =>
      match method with
      | POST =>
          match body with
          | Initialize =>
              match sessionId t with
              | None =>
                  let sid := randomUUID env in
                  let st1 :=
                    set_transport transport
                      {| sessionId := Some sid; closed := closed t |} st in
                  (Handled transport (Initialized sid),
                   onsessioninitialized transport sid st1)
              | Some _ => (Handled transport Processed, st)
              end
          | ToolsList => (Handled transport (Tools (list_tools (server st))), st)
          | ToolsCall n args =>
              (Handled transport (Called (callTool (server st) n args (world env))), st)
          | OtherBody => (Handled transport Processed, st)
          end
      | GET => (Handled transport Processed, st)
      | DELETE => (Handled transport Terminated, close transport st)
      end
  end.

(** [new StreamableHTTPServerTransport({...})] followed by the assignment
    of [onclose] and [server.connect(transport)]: a new object, appended
    to the heap. *)
Definition new_transport (st : State) : nat * State :=
  (length (heap st),
   {| transports := transports st;
      heap := heap st ++ [{| sessionId := None; closed := false |}];
      server := server st |}).

Definition header_truthy (h : option string) : bool :=
  match h with Some s => truthy s | None => false end.

Definition error_envelope : Envelope :=
  {| jsonrpc := "2.0"; error_code := -32000;
     error_message := "Bad Request: No valid session ID provided"; id := None |}.

(** [app.post('/mcp', async (req, res) => { ... })]. *)
Definition post (req : Request) (env : Env) (st : State) : Response * State :=
  let sessionId := mcp_session_id req in
  match (if header_truthy sessionId
         then get (transports st) (default "" sessionId) else Undefined) with
  | Own transport => handleRequest transport POST (body req) env st
  | Inherited => (Threw "transport.handleRequest is not a function", st)
  | Undefined =>
      if negb (header_truthy sessionId) && isInitializeRequest (body req)
      then
        let (transport, st1) := new_transport st in
        handleRequest transport POST (body req) env st1
      else (Respond 400 (JsonBody error_envelope), st)
  end.

(** [handleSessionRequest], the route of GET and DELETE. *)
Definition handleSessionRequest (method : Method) (req : Request) (env : Env)
    (st : State) : Response * State :=
  let sessionId := mcp_session_id req in
  match (if header_truthy sessionId
         then get (transports st) (default "" sessionId) else Undefined) with
  | Undefined => (Respond 400 (TextBody "Invalid or missing session ID"), st)
  | Own transport => handleRequest transport method (body req) env st
  | Inherited => (Threw "transport.handleRequest is not a function", st)
  end.

(** The three routes of [app]. *)
Definition route (method : Method) (req : Request) (env : Env) (st : State)
  : Response * State :=
  match method with
  | POST => post req env st
  | GET => handleSessionRequest GET req env st
  | DELETE => handleSessionRequest DELETE req env st
  end.

(** What can happen to the running server: a request on one of the
    routes, or a transport that reports its closure. *)
Inductive Event :=
| Incoming (method : Method) (req : Request) (env : Env)
| Closure (transport : nat).

Definition step (e : Event) (st : State) : State :=
  match e with
  | Incoming method req env => (route method req env st).2
  | Closure transport => close transport st
  end.

(** The state after start-up: [registerTools(server)] has run, the table
    is empty. *)
Definition registered : Registry :=
  match ToolsJs.registerTools [] with
  | Resolved server => server
  | Rejected _ => []
  end.

Definition start : State :=
  {| transports := ∅; heap := []; server := registered |}.

(** The text [randomUUID()] returns: 36 characters, hexadecimal digits
    in five groups separated by dashes. *)
Definition is_hex (c : ascii) : bool :=
  is_digit c || ((97 <=? code c)%nat && (code c <=? 102)%nat).

Fixpoint uuid_shape (groups : list nat) (s : list ascii) : bool :=
  match groups with
  | [] => false
  | [n] => bool_decide (length s = n) && forallb is_hex s
  | n :: rest =>
      forallb is_hex (take n s)
      && bool_decide (length (take n s) = n)
      && match drop n s with
         | c :: s' => bool_decide (c = "-"%char) && uuid_shape rest s'
         | [] => false
         end
  end.

Definition is_uuid (s : string) : bool :=
  uuid_shape [8; 4; 4; 4; 12]%nat (String.list_ascii_of_string s).

(** An identifier never handed out before. *)
Definition unused (sid : string) (st : State) : Prop :=
  ∀ t, t ∈ heap st -> sessionId t ≠ Some sid.

(** The events the environment can produce: every [randomUUID()] is a
    well-formed identifier that has not been generated before. *)
Definition possible (e : Event) (st : State) : Prop :=
  match e with
  | Incoming _ _ env => is_uuid (randomUUID env) = true ∧ unused (randomUUID env) st
  | Closure _ => True
  end.

Inductive reachable : State -> Prop :=
| reachable_start : reachable start
| reachable_step e st : reachable st -> possible e st -> reachable (step e st).

(** The shape of the states the server runs through: every entry of the
    table refers to an open transport carrying the entry's key as its id;
    every open transport has an entry; every transport has been given a
    well-formed id, different from the id of every other transport; the
    registered tools are those of start-up. *)
Record well_formed (st : State) : Prop := {
  wf_table : ∀ sid r, transports st !! sid = Some r ->
             heap st !! r = Some {| sessionId := Some sid; closed := false |};
  wf_open : ∀ r t, heap st !! r = Some t -> closed t = false ->
            ∃ sid, sessionId t = Some sid ∧ transports st !! sid = Some r;
  wf_ids : ∀ r1 r2 t1 t2, heap st !! r1 = Some t1 -> heap st !! r2 = Some t2 ->
           sessionId t1 = sessionId t2 -> r1 = r2;
  wf_uuid : ∀ t, t ∈ heap st -> ∃ sid, sessionId t = Some sid ∧ is_uuid sid = true;
  wf_server : server st = registered
}.


(** A request that names no session of the table: the header is absent
    or empty, or it is a string that is neither a key of the table nor a
    name inherited from [Object.prototype]. *)
Definition no_session (req : Request) (st : State) : Prop :=
  match mcp_session_id req with
  | None => True
  | Some sid =>
      truthy sid = false ∨ (transports st !! sid = None ∧ sid ∉ Object_prototype)
  end.

(** A session is in the table when some key of the table refers to it. *)
Definition in_table (transport : nat) (st : State) : Prop :=
  ∃ sid, transports st !! sid = Some transport.

(** Rejection as [InvalidSession]: a 400 written by the route itself. *)
Definition InvalidSession (r : Response) : Prop :=
  ∃ payload, r = Respond 400 payload.

End Index.

(** ** Failing invocations *)

Module Failures.
Import Js Tools Mcp.




End Failures.

(** ** Sample inputs *)

Module Samples.
Import Js Tools Mcp Index.

(** A world in which every external service fails with [boom]. *)
Definition failing_world : World :=
  {| encodeURIComponent := Resolved;
     google_news := fun _ => Rejected "boom";
     twitter_tweet := fun _ => Rejected "boom";
     wikipedia := fun _ => Rejected "boom";
     github := fun _ => Rejected "boom";
     omdb := fun _ => Rejected "boom";
     dictionary := fun _ => Rejected "boom";
     OMDB_API_KEY := "key";
     round_rating := fun _ => None;
     file_system := fun _ => Resolved (FileSearch.Locked "." "boom");
     formatFileSize := fun _ => "0 B";
     toISOString := fun _ => "1970-01-01T00:00:00.000Z";
     eval := fun _ _ => TruthTable.Raised (Resolved "boom") |}.

(** A world whose [eval] knows conjunctions of two constants and changes
    nothing. *)
Definition conjunction_world : World :=
  {| encodeURIComponent := Resolved;
     google_news := fun _ => Rejected "boom";
     twitter_tweet := fun _ => Rejected "boom";
     wikipedia := fun _ => Rejected "boom";
     github := fun _ => Rejected "boom";
     omdb := fun _ => Rejected "boom";
     dictionary := fun _ => Rejected "boom";
     OMDB_API_KEY := "key";
     round_rating := fun _ => None;
     file_system := fun _ => Resolved (FileSearch.Locked "." "boom");
     formatFileSize := fun _ => "0 B";
     toISOString := fun _ => "1970-01-01T00:00:00.000Z";
     eval := fun text row => TruthTable.Done (bool_decide (text = "true && true"), row) |}.

(** A world whose [eval] stands for an expression that assigns [true]
    to the property [B] of its row; and one whose [eval] stands for an
    expression that throws [null]. *)
Definition assigning_world : World :=
  {| encodeURIComponent := encodeURIComponent conjunction_world;
     google_news := google_news conjunction_world;
     twitter_tweet := twitter_tweet conjunction_world;
     wikipedia := wikipedia conjunction_world;
     github := github conjunction_world;
     omdb := omdb conjunction_world;
     dictionary := dictionary conjunction_world;
     OMDB_API_KEY := OMDB_API_KEY conjunction_world;
     round_rating := round_rating conjunction_world;
     file_system := file_system conjunction_world;
     formatFileSize := formatFileSize conjunction_world;
     toISOString := toISOString conjunction_world;
     eval := fun _ row => TruthTable.Done (true, <["B"%char := true]> row) |}.

Definition null_world : World :=
  {| encodeURIComponent := encodeURIComponent conjunction_world;
     google_news := google_news conjunction_world;
     twitter_tweet := twitter_tweet conjunction_world;
     wikipedia := wikipedia conjunction_world;
     github := github conjunction_world;
     omdb := omdb conjunction_world;
     dictionary := dictionary conjunction_world;
     OMDB_API_KEY := OMDB_API_KEY conjunction_world;
     round_rating := round_rating conjunction_world;
     file_system := file_system conjunction_world;
     formatFileSize := formatFileSize conjunction_world;
     toISOString := toISOString conjunction_world;
     eval := fun _ _ =>
       TruthTable.Raised (Rejected "Cannot read properties of null (reading 'message')") |}.

Definition first_env : Env :=
  {| randomUUID := "123e4567-e89b-42d3-a456-426614174000"; world := failing_world |}.

Definition second_env : Env :=
  {| randomUUID := "0f8fad5b-d9cb-469f-a165-70867728950e"; world := failing_world |}.

Definition handshake : Request := {| mcp_session_id := None; body := Initialize |}.

Definition list_query : Request := {| mcp_session_id := None; body := ToolsList |}.

(** The state after one handshake. *)
Definition one_session : State := step (Incoming POST handshake first_env) start.

End Samples.

(** ** What a search has to find *)

Module FileSearchListing.
Import Js FileSearch.

(** The entries of a tree that are not directories, with their paths, in
    the order the scan meets them, leaving out what lies below a
    directory named [node_modules] or [.git]. *)
Fixpoint visible_files (dir : Path) (d : Dirent)
  : list (Path * (string * Outcome string * Outcome Stats)) :=
  match d with
  | Directory _ files =>
      flat_map
        (fun file =>
           let fullPath := path_join dir (dirent_name file) in
           match file with
           | File fname contents stat => [(fullPath, (fname, contents, stat))]
           | _ =>
               if negb (skipped (dirent_name file))
               then visible_files fullPath file
               else []
           end)
        files
  | _ => []
  end.

(** The element of [results] pushed for a matching file. *)
Definition found_of (fullPath : Path) (fname : string) (stat : Outcome Stats) : Found :=
  let stats := match stat with
               | Resolved s => s
               | Rejected _ => {| size := 0; mtime := 0 |}
               end in
  {| found_name := fname; found_path := fullPath;
     found_size := size stats; lastModified := mtime stats |}.

(** The matching files of a tree, in scan order. *)
Definition matches (searchTerm : string) (fileType : FileType) (dir : Path) (d : Dirent)
  : list Found :=
  flat_map
    (fun entry : Path * (string * Outcome string * Outcome Stats) =>
       let '(fullPath, (fname, contents, stat)) := entry in
       if isMatch searchTerm fileType fname contents
       then [found_of fullPath fname stat] else [])
    (visible_files dir d).

(** The matches of one entry of a directory. *)
Definition entry_matches term ft (dir : Path) (file : Dirent) : list Found :=
  match file with
  | File fname contents stat =>
      if isMatch term ft fname contents
      then [found_of (path_join dir fname) fname stat] else []
  | _ =>
      if negb (skipped (dirent_name file))
      then matches term ft (path_join dir (dirent_name file)) file
      else []
  end.

(** The messages with which reading a directory of the tree throws,
    for the directories a scan may enter. *)
Fixpoint locked_messages (d : Dirent) : list string :=
  match d with
  | Locked _ m => [m]
  | Directory _ files =>
      flat_map
        (fun file =>
           if isDirectory file && negb (skipped (dirent_name file))
           then locked_messages file else [])
        files
  | File _ _ _ => []
  end.

(** Newest first. *)
Definition newer_or_equal (a b : Found) : Prop := lastModified b <= lastModified a.

End FileSearchListing.

(** ** Sample directory trees *)

Module SampleTrees.
Import Js FileSearch.

Definition note : Dirent :=
  File "Notes.TXT" (Resolved "shopping list") (Resolved {| size := 13; mtime := 30 |}).

Definition script : Dirent :=
  File "main.js" (Resolved "console.log('notes')") (Resolved {| size := 20; mtime := 10 |}).

Definition picture : Dirent :=
  File "notes.png" (Rejected "EACCES") (Rejected "ENOENT").

(** A project directory with a dependency folder and a source folder. *)
Definition project : Dirent :=
  Directory "."
    [note;
     Directory "node_modules" [script; Locked "cache" "EACCES"];
     Directory "src" [script; picture];
     Directory ".git" [note]].

End SampleTrees.

(** ** Word boundaries *)

Module Boundaries.
Import Js.

(** Whether the character next to a position, if there is one, is a word
    character; a word boundary lies between a word character and what is
    not one. *)
Definition wordness (o : option ascii) : bool :=
  match o with
  | Some c => is_word c
  | None => false
  end.

End Boundaries.

(** ** Events that end a session *)

Module SessionEnd.
Import Js Index.

(** The event is the termination of the session [sid], held by the
    transport [r]: the closure of that transport, or a DELETE request
    that carries the id. *)
Definition ends_session (e : Event) (sid : string) (r : nat) : Prop :=
  match e with
  | Closure r' => r' = r
  | Incoming DELETE req _ => mcp_session_id req = Some sid
  | Incoming _ _ _ => False
  end.

End SessionEnd.

(** ** The chat loop of the client (client/index.js) *)

Module Client.
Import Js.

(** [String.prototype.trim] and [toUpperCase] on ASCII text. *)
Definition is_space (c : ascii) : bool :=
  ((9 <=? code c)%nat && (code c <=? 13)%nat) || (code c =? 32)%nat.

Fixpoint trimStart (s : string) : string :=
  match s with
  | EmptyString => EmptyString
  | String c r => if is_space c then trimStart r else s
  end.

Fixpoint trimEnd (s : string) : string :=
  match s with
  | EmptyString => EmptyString
  | String c r =>
      match trimEnd r with
      | EmptyString => if is_space c then EmptyString else String c EmptyString
      | r' => String c r'
      end
  end.

Definition trim (s : string) : string := trimEnd (trimStart s).

Definition upper_char (c : ascii) : ascii :=
  if is_lower c then ascii_of_nat (code c - 32) else c.

Fixpoint toUpperCase (s : string) : string :=
  match s with
  | EmptyString => EmptyString
  | String c r => String (upper_char c) (toUpperCase r)
  end.

(** An entry of [chatHistory]: [{ role, parts: [{ text, type }] }]; the
    text of a model answer is [undefined] when the answer has none. *)
Record Part := { text : option string; type : string }.
Record Content := { role : string; parts : list Part }.

(** [response.candidates[0].content.parts[0]]: its [functionCall], if
    any, and its [text]. *)
Record ModelPart := {
  functionCall : option (string * Tools.Args);
  model_text : option string
}.

(** One pass of the loop as the outside world provides it: the line the
    user types, the answer of [ai.models.generateContent] to the history
    sent, and the answer of [client.callTool]. *)
Record Turn := {
  question : string;
  generateContent : list Content -> Outcome ModelPart;
  callTool : string -> Tools.Args -> Outcome Tools.ToolResult
}.

(** How the loop stands after the turns given: it has exited on [EXIT],
    an awaited call has rejected (nothing catches it), or it waits for
    the next question. *)
Inductive Run :=
| Exited (chatHistory : list Content)
| Crashed (message : string) (chatHistory : list Content)
| Waiting (chatHistory : list Content).

Definition user_says (q : string) : Content :=
  {| role := "user"; parts := [{| text := Some q; type := "text" |}] |}.

Definition model_says (t : option string) : Content :=
  {| role := "model"; parts := [{| text := t; type := "text" |}] |}.

(** [chatLoop]. *)
Fixpoint chatLoop (turns : list Turn) (chatHistory : list Content) : Run :=
  match turns with
  | [] => Waiting chatHistory
  | turn :: rest =>
      if bool_decide (toUpperCase (trim (question turn)) = "EXIT")
      then Exited chatHistory
      else
        let chatHistory := chatHistory ++ [user_says (question turn)] in
        match generateContent turn chatHistory with
        | Rejected m => Crashed m chatHistory
        | Resolved part =>
            match functionCall part with
            | Some (name, args) =>
                match callTool turn name args with
                | Rejected m => Crashed m chatHistory
                | Resolved content =>
                    let toolResponse := join " " (map Tools.text content) in
                    chatLoop rest (chatHistory ++ [model_says (Some toolResponse)])
                end
            | None =>
                chatLoop rest (chatHistory ++ [model_says (model_text part)])
            end
        end
  end.

(** [k] exchanges: a user entry followed by a model entry, [k] times. *)
Fixpoint exchanges (k : nat) : list string :=
  match k with
  | O => []
  | S k => "user" :: "model" :: exchanges k
  end.

End Client.

(** ** Sample states *)

Module SampleStates.
Import Js Index.

(** One session opened and closed, then another one opened. *)
Definition reopened : State :=
  step (Incoming POST Samples.handshake Samples.second_env)
       (step (Closure 0) Samples.one_session).

End SampleStates.

(** * Properties *)

(** ** Truth table *)

Module TruthTableFacts.
Import Js TruthTable.

Lemma code_inj a b : code a = code b -> a = b.
Proof.
  unfold code. intros H.
  rewrite <- (ascii_nat_embedding a), <- (ascii_nat_embedding b). by rewrite H.
Qed.

Lemma shl_one n : 0 <= n <= 30 -> shl 1 n = 2 ^ n.
Proof.
  intros Hn. unfold shl, to_int32.
  assert (1 <= 2 ^ n <= 2 ^ 30) as Hp.
  { split; [apply (Z.pow_le_mono_r 2 0 n); lia | apply Z.pow_le_mono_r; lia]. }
  change ((1 + 2 ^ 31) mod 2 ^ 32 - 2 ^ 31) with 1.
  rewrite (Z.mod_small n 32) by lia.
  rewrite Z.shiftl_1_l.
  rewrite Z.mod_small; lia.
Qed.

Lemma bit_of_index i m :
  0 <= i < 2 ^ 30 -> 0 <= m < 30 -> Boolean (band (shr i m) 1) = Z.testbit i m.
Proof.
  intros Hi Hm. unfold band, shr.
  assert (to_int32 i = i) as ->.
  { unfold to_int32. rewrite Z.mod_small; lia. }
  rewrite (Z.mod_small m 32) by lia.
  assert (0 <= Z.shiftr i m < 2 ^ 30) as Hs.
  { rewrite Z.shiftr_div_pow2 by lia. split.
    - apply Z.div_pos; [lia | apply Z.pow_pos_nonneg; lia].
    - apply Z.le_lt_trans with i; [|lia].
      apply Z.div_le_upper_bound; [apply Z.pow_pos_nonneg; lia|].
      assert (1 <= 2 ^ m) by (apply (Z.pow_le_mono_r 2 0 m); lia). nia. }
  assert (to_int32 (Z.shiftr i m) = Z.shiftr i m) as ->.
  { unfold to_int32. rewrite Z.mod_small; lia. }
  change (to_int32 1) with 1.
  change 1 with (Z.ones 1) at 1. rewrite Z.land_ones by lia.
  change (2 ^ 1) with 2. rewrite <- Z.bit0_mod, Z.shiftr_spec by lia.
  rewrite Z.add_0_l. unfold Boolean.
  destruct (Z.testbit i m); reflexivity.
Qed.

Lemma fill_row_other vars n i j (row : Row) v :
  v ∉ vars -> fill_row n i j vars row !! v = row !! v.
Proof.
  revert j row. induction vars as [|w rest IH]; intros j row Hv; [done|].
  apply not_elem_of_cons in Hv as [Hne Hv]. simpl.
  rewrite IH by done. by apply lookup_insert_ne.
Qed.

Lemma fill_row_dom vars n i j (row : Row) :
  dom (fill_row n i j vars row) = list_to_set vars ∪ dom row.
Proof.
  revert j row. induction vars as [|w rest IH]; intros j row; simpl.
  - set_solver.
  - rewrite IH, dom_insert_L. set_solver.
Qed.

Lemma row_bits_fill vars n i j (row : Row) :
  NoDup vars ->
  row_bits vars (fill_row n i j vars row)
  = map (fun k => Boolean (band (shr i (n - k - 1)) 1))
        (seqZ j (Z.of_nat (length vars))).
Proof.
  revert j row. induction vars as [|w rest IH]; intros j row Hnd; [done|].
  apply NoDup_cons in Hnd as [Hw Hnd].
  rewrite seqZ_cons by (simpl; lia).
  replace (Z.pred (Z.of_nat (length (w :: rest)))) with (Z.of_nat (length rest))
    by (simpl; lia).
  simpl. f_equal.
  - by rewrite fill_row_other, lookup_insert_eq.
  - rewrite IH by done. by rewrite Z.add_1_r.
Qed.

Lemma binary_value_bits i (m : nat) j n acc :
  0 <= i -> j + Z.of_nat m = n -> 0 <= j ->
  fold_left (fun a (b : bool) => 2 * a + (if b then 1 else 0))
            (map (fun k => Z.testbit i (n - k - 1)) (seqZ j (Z.of_nat m))) acc
  = acc * 2 ^ Z.of_nat m + i mod 2 ^ Z.of_nat m.
Proof.
  intros Hi. revert j acc. induction m as [|m IH]; intros j acc Hn Hj.
  - simpl. rewrite Z.mod_1_r. lia.
  - rewrite seqZ_cons by lia.
    replace (Z.pred (Z.of_nat (S m))) with (Z.of_nat m) by lia.
    simpl map. simpl fold_left. rewrite IH by lia.
    replace (n - j - 1) with (Z.of_nat m) by lia.
    replace (Z.of_nat (S m)) with (Z.of_nat m + 1) by lia.
    rewrite Z.pow_add_r, Z.pow_1_r by lia.
    rewrite (Z.rem_mul_r i (2 ^ Z.of_nat m) 2) by (try apply Z.pow_nonzero; lia).
    rewrite <- (Z.testbit_spec' i (Z.of_nat m)) by lia.
    destruct (Z.testbit i (Z.of_nat m)); simpl Z.b2z; lia.
Qed.

Lemma pow2_nat (k : nat) : 2 ^ Z.of_nat k = Z.of_nat (2 ^ k).
Proof. by rewrite Nat2Z.inj_pow. Qed.

Lemma row_spells_index vars (i : nat) :
  NoDup vars -> (length vars <= 30)%nat -> (i < 2 ^ length vars)%nat ->
  binary_value
    (row_bits vars (fill_row (Z.of_nat (length vars)) (Z.of_nat i) 0 vars ∅))
  = Z.of_nat i.
Proof.
  intros Hnd Hlen Hi. set (n := length vars) in *.
  assert (0 <= Z.of_nat i < 2 ^ Z.of_nat n) as Hi' by (rewrite pow2_nat; lia).
  assert (2 ^ Z.of_nat n <= 2 ^ 30) as Hn' by (apply Z.pow_le_mono_r; lia).
  rewrite row_bits_fill by done. fold n.
  rewrite (map_ext_in _ (fun k => Z.testbit (Z.of_nat i) (Z.of_nat n - k - 1))).
  - unfold binary_value. rewrite (binary_value_bits _ n 0 (Z.of_nat n)) by lia.
    rewrite Z.mod_small; lia.
  - intros k Hk%list_elem_of_In%elem_of_seqZ. apply bit_of_index; lia.
Qed.

Lemma combinations_length vars :
  (length vars <= 30)%nat ->
  length (generateCombinations vars) = (2 ^ length vars)%nat.
Proof.
  intros Hlen. unfold generateCombinations.
  rewrite length_map, length_seq, shl_one by lia.
  by rewrite pow2_nat, Nat2Z.id.
Qed.

Lemma combinations_spell vars :
  NoDup vars -> (length vars <= 30)%nat ->
  map (fun row => binary_value (row_bits vars row)) (generateCombinations vars)
  = map Z.of_nat (seq 0 (2 ^ length vars)).
Proof.
  intros Hnd Hlen. unfold generateCombinations.
  rewrite shl_one, pow2_nat, Nat2Z.id by lia.
  rewrite map_map. apply map_ext_in. intros i Hi%in_seq.
  apply row_spells_index; [done..|lia].
Qed.

Lemma combinations_dom vars :
  Forall (fun row : Row => dom row = list_to_set vars) (generateCombinations vars).
Proof.
  unfold generateCombinations. apply Forall_map, Forall_forall. intros i _.
  simpl. rewrite fill_row_dom. set_solver.
Qed.

Lemma new_Set_acc (l acc : list ascii) :
  NoDup acc ->
  let r := fold_left (fun acc x => if decide (x ∈ acc) then acc else acc ++ [x]) l acc in
  NoDup r ∧ ∀ x, x ∈ r ↔ x ∈ acc ∨ x ∈ l.
Proof.
  revert acc. induction l as [|y l IH]; intros acc Hnd; simpl.
  - split; [done|]. intros x. rewrite elem_of_nil. tauto.
  - destruct (decide (y ∈ acc)) as [Hy|Hy].
    + destruct (IH acc Hnd) as [H1 H2]. split; [done|].
      intros x. rewrite H2, elem_of_cons. split; [tauto|].
      intros [?|[->|?]]; tauto.
    + assert (NoDup (acc ++ [y])) as Hnd'.
      { apply NoDup_app. split_and!; [done| |apply NoDup_singleton].
        intros x Hx ->%list_elem_of_singleton. done. }
      destruct (IH _ Hnd') as [H1 H2]. split; [done|].
      intros x. rewrite H2, elem_of_app, list_elem_of_singleton, elem_of_cons. tauto.
Qed.

Lemma new_Set_NoDup l : NoDup (new_Set l).
Proof. apply (new_Set_acc l []), NoDup_nil_2. Qed.

Lemma new_Set_elem l x : x ∈ new_Set l ↔ x ∈ l.
Proof.
  destruct (new_Set_acc l [] (NoDup_nil_2 (A:=ascii))) as [_ H].
  unfold new_Set. rewrite H, elem_of_nil. tauto.
Qed.

Lemma match_vars_elem prev s c :
  c ∈ match_vars prev s ↔
  ∃ pre post, s = pre ++ c :: post ∧ is_upper c = true
    ∧ (∀ p, last (option_list prev ++ pre) = Some p -> is_word p = false)
    ∧ (∀ n, head post = Some n -> is_word n = false).
Proof.
  revert prev. induction s as [|d s IH]; intros prev.
  - simpl. rewrite elem_of_nil. split; [done|].
    intros (pre & post & Heq & _). by destruct pre.
  - cbn [match_vars]. rewrite elem_of_app, IH. split.
    + intros [Hhere | (pre & post & -> & Hup & Hb & Ha)].
      * destruct (is_upper d) eqn:Hup; [|by apply elem_of_nil in Hhere].
        destruct (match prev with None => true | Some p => negb (is_word p) end) eqn:Hb;
          [|by apply elem_of_nil in Hhere].
        destruct (match s with [] => true | n :: _ => negb (is_word n) end) eqn:Ha;
          [|by apply elem_of_nil in Hhere].
        apply list_elem_of_singleton in Hhere as ->.
        exists [], s. split_and!; [done..| |].
        -- intros p. rewrite app_nil_r. destruct prev as [q|]; simpl; [|done].
           intros [= ->]. by destruct (is_word p).
        -- intros n. destruct s as [|m s']; simpl; [done|].
           intros [= ->]. by destruct (is_word n).
      * exists (d :: pre), post. split_and!; [done..| |done].
        intros p Hp. apply Hb. simpl.
        destruct prev as [q|]; simpl in *; [|done].
        by destruct pre.
    + intros (pre & post & Heq & Hup & Hb & Ha).
      destruct pre as [|e pre]; simpl in Heq; injection Heq as -> ->.
      * left. rewrite Hup. rewrite app_nil_r in Hb.
        assert (match prev with None => true | Some p => negb (is_word p) end = true) as ->.
        { destruct prev as [q|]; [|done]. by rewrite (Hb q). }
        assert (match post with [] => true | n :: _ => negb (is_word n) end = true) as ->.
        { destruct post as [|m post']; [done|]. by rewrite (Ha m). }
        simpl. by apply list_elem_of_singleton.
      * right. exists pre, post. split_and!; [done..| |done].
        intros p Hp. apply Hb.
        destruct prev as [q|]; simpl in *; [|done].
        by destruct pre.
Qed.

#[local] Instance char_le_total : Total char_le.
Proof. intros a b. unfold char_le. lia. Qed.

#[local] Instance char_le_trans : Transitive char_le.
Proof. intros a b c. unfold char_le. lia. Qed.

Lemma sort_strict l : NoDup l -> StronglySorted char_lt (sort l).
Proof.
  intros Hnd. unfold sort.
  pose proof (StronglySorted_merge_sort char_le l) as Hs.
  assert (NoDup (merge_sort char_le l)) as Hnd'.
  { by rewrite merge_sort_Permutation. }
  induction Hs as [|a r Hs IH Hall]; [constructor|].
  apply NoDup_cons in Hnd' as [Ha Hr]. constructor; [by apply IH|].
  rewrite Forall_forall in Hall |- *. intros x Hx.
  specialize (Hall x Hx). unfold char_le, char_lt in *.
  destruct (decide (code a = code x)) as [Heq%code_inj|]; [by subst|lia].
Qed.

Lemma extractVariables_elem expr c :
  c ∈ extractVariables expr ↔ is_variable_of expr c.
Proof.
  unfold extractVariables, sort. rewrite merge_sort_Permutation, new_Set_elem.
  apply match_vars_elem.
Qed.

Lemma extractVariables_NoDup expr : NoDup (extractVariables expr).
Proof.
  unfold extractVariables, sort. rewrite merge_sort_Permutation. apply new_Set_NoDup.
Qed.

Lemma upper_letters_bound (l : list ascii) :
  NoDup l -> (∀ c, c ∈ l -> is_upper c = true) -> (length l <= 26)%nat.
Proof.
  intros Hnd Hup.
  assert (NoDup (code <$> l)) as Hnd'.
  { apply NoDup_fmap_2; [|done]. intros a b. apply code_inj. }
  rewrite <- (length_fmap code l).
  replace 26%nat with (length (seq 65 26)) by apply length_seq.
  apply NoDup_incl_length; [by apply NoDup_ListNoDup|].
  intros k Hk%list_elem_of_In%list_elem_of_fmap. destruct Hk as (c & -> & Hc).
  apply Hup in Hc. unfold is_upper in Hc. apply in_seq.
  apply andb_true_iff in Hc as [H1%Nat.leb_le H2%Nat.leb_le]. lia.
Qed.

Lemma extractVariables_length expr : (length (extractVariables expr) <= 26)%nat.
Proof.
  apply upper_letters_bound; [apply extractVariables_NoDup|].
  intros c (pre & post & _ & Hup & _)%extractVariables_elem. done.
Qed.

Lemma build_table_done eval expr rows outs :
  Forall2 (fun row out => evaluate eval expr row = Done out) rows outs ->
  build_table eval expr rows = Done (map (fun out : bool * Row => (out.2, out.1)) outs).
Proof.
  induction 1 as [|row [result row'] rows outs Hrow _ IH]; simpl; [done|].
  by rewrite Hrow, IH.
Qed.

Lemma build_table_quiet eval expr rows results :
  Forall2 (fun row result => evaluate eval expr row = Done (result, row)) rows results ->
  build_table eval expr rows = Done (zip rows results).
Proof.
  induction 1 as [|row result rows results Hrow _ IH]; simpl; [done|].
  by rewrite Hrow, IH.
Qed.

(** C10. For every expression, the variables the truth-table tool extracts
    are exactly the stand-alone upper-case letters of the expression, in
    strictly ascending alphabetical order (so without duplicates); with [n]
    such variables the tool enumerates [2 ^ n] rows, every row assigns
    exactly those variables, and the [i]-th row spells the number [i] in
    binary with the first variable as the most significant bit. The
    handler evaluates the expression on these rows in this order: when
    every evaluation yields a value, the answer of the tool is the table
    whose [i]-th line is the [i]-th row as its evaluation left it; when
    moreover the evaluations leave the rows as they are, the table shows
    exactly the rows enumerated, in this order, each with its result. *)
Theorem truth_table_enumeration (expr : string) :
  let vars := extractVariables expr in
  let rows := generateCombinations vars in
  StronglySorted char_lt vars
  ∧ (∀ c, c ∈ vars ↔ is_variable_of expr c)
  ∧ length rows = (2 ^ length vars)%nat
  ∧ Forall (fun row : Row => dom row = list_to_set vars) rows
  ∧ map (fun row => binary_value (row_bits vars row)) rows
    = map Z.of_nat (seq 0 (2 ^ length vars))
  ∧ (∀ (v : Tools.Args) (w : Tools.World) (outs : list (bool * Row)),
       v !! "expression" = Some (Tools.VString expr) ->
       Forall2 (fun row out => evaluate (Tools.eval w) expr row = Done out) rows outs ->
       Tools.truth_table v w
       = Resolved [Tools.text_block
                     (Tools.table_text vars
                        (map (fun out : bool * Row => (out.2, out.1)) outs))])
  ∧ (∀ (v : Tools.Args) (w : Tools.World) (results : list bool),
       v !! "expression" = Some (Tools.VString expr) ->
       Forall2 (fun row result => evaluate (Tools.eval w) expr row = Done (result, row))
               rows results ->
       Tools.truth_table v w
       = Resolved [Tools.text_block (Tools.table_text vars (zip rows results))]).
Proof.
  intros vars rows.
  assert (length vars <= 30)%nat as Hlen.
  { pose proof (extractVariables_length expr). unfold vars. lia. }
  pose proof (extractVariables_NoDup expr) as Hnd.
  split_and!.
  - apply sort_strict, new_Set_NoDup.
  - intros c. apply extractVariables_elem.
  - by apply combinations_length.
  - apply combinations_dom.
  - by apply combinations_spell.
  - intros v w outs Hv Hdone. unfold Tools.truth_table. rewrite Hv.
    fold vars. fold rows. by rewrite (build_table_done _ _ _ _ Hdone).
  - intros v w results Hv Hquiet. unfold Tools.truth_table. rewrite Hv.
    fold vars. fold rows. by rewrite (build_table_quiet _ _ _ _ Hquiet).
Qed.

Lemma truth_table_enumeration_witness :
  Tools.truth_table (<["expression" := Tools.VString "A && B"]> ∅) Samples.conjunction_world
  = Resolved [Tools.text_block
                (Tools.table_text (extractVariables "A && B")
                   (zip (generateCombinations (extractVariables "A && B"))
                        [false; false; false; true]))].
Proof.
  apply (proj2 (proj2 (proj2 (proj2 (proj2 (proj2 (truth_table_enumeration "A && B"))))))).
  - reflexivity.
  - vm_compute. repeat constructor.
Defined.

(** An expression that writes to its row changes the row shown: with a
    write of [true] to [B] the table shows [B] true in all four lines. *)
Example evaluation_can_rewrite_the_row :
  Tools.truth_table (<["expression" := Tools.VString "A && B"]> ∅) Samples.assigning_world
  = Resolved [Tools.text_block
                (Tools.table_text (extractVariables "A && B")
                   (map (fun row : Row => (<["B"%char := true]> row, true))
                        (generateCombinations (extractVariables "A && B"))))]
  ∧ map (fun row : Row => row_bits (extractVariables "A && B") (<["B"%char := true]> row))
        (generateCombinations (extractVariables "A && B"))
    = [[false; true]; [false; true]; [true; true]; [true; true]].
Proof. split; reflexivity. Qed.

(** An expression that throws [null] makes the handler itself throw:
    its [catch] block reads [e.message]. *)
Example thrown_null_rejects :
  Tools.truth_table (<["expression" := Tools.VString "A && B"]> ∅) Samples.null_world
  = Rejected "Cannot read properties of null (reading 'message')".
Proof. reflexivity. Qed.

End TruthTableFacts.

(** ** File search *)

Module FileSearchFacts.
Import Js FileSearch.

(** Induction on directory trees, with the hypothesis available for every
    entry of a directory. *)
Lemma Dirent_tree_ind (P : Dirent -> Prop) :
  (∀ n c s, P (File n c s)) ->
  (∀ n files, Forall P files -> P (Directory n files)) ->
  (∀ n m, P (Locked n m)) ->
  ∀ d, P d.
Proof.
  intros HF HD HL. fix IH 1. intros [n c s|n files|n m].
  - apply HF.
  - apply HD. induction files as [|f files IHf]; constructor; [apply IH|apply IHf].
  - apply HL.
Qed.

Lemma scan_file_count term ft fullPath n c s st :
  count st <= count (scan_file term ft fullPath n c s st) <= count st + 1.
Proof.
  unfold scan_file, count. destruct (isMatch term ft n c); simpl.
  - rewrite length_app. simpl. lia.
  - lia.
Qed.

Lemma for_of_bound body files st :
  Forall (fun file => ∀ st, count st < 20 -> count (body file st).1 <= 20) files ->
  count st < 20 -> count (for_of body files st).1 <= 20.
Proof.
  intros Hall. revert st. induction Hall as [|file rest Hfile _ IH]; intros st Hst.
  - simpl. lia.
  - simpl. specialize (Hfile st Hst).
    destruct (body file st) as [st' [m|]]; simpl in *; [done|].
    fold (count st'). destruct (20 <=? count st') eqn:Hc; simpl; [done|].
    apply IH. lia.
Qed.

Lemma scanDirectory_bound term ft d :
  ∀ dir st, count st < 20 -> count (scanDirectory term ft dir d st).1 <= 20.
Proof.
  induction d as [n c s|n files IH|n m] using Dirent_tree_ind; intros dir st Hst;
    simpl; [lia| |lia].
  apply for_of_bound; [|done].
  eapply Forall_impl; [exact IH|]. intros file Hfile st' Hst'. simpl in Hfile.
  destruct file as [fn fc fs|dn des|dn dm].
  - simpl. pose proof (scan_file_count term ft (path_join dir fn) fn fc fs st'). lia.
  - destruct (negb (skipped (dirent_name (Directory dn des)))); [by apply Hfile|simpl; lia].
  - destruct (negb (skipped (dirent_name (Locked dn dm)))); [by apply Hfile|simpl; lia].
Qed.

(** C8, amended. The check [results.length >= 20] closes every iteration,
    also the one whose body was a recursive call, so the break is repeated
    at every level: for every tree and every search input the scan ends
    with at most 20 results. *)
Theorem results_never_exceed_20 (searchTerm : string) (fileType : FileType)
    (directory : string) (root : Dirent) :
  (length (results (search searchTerm fileType directory root).1) <= 20)%nat.
Proof.
  pose proof (scanDirectory_bound searchTerm fileType root [directory] scan_start) as H.
  unfold count in H. unfold search. simpl in H. lia.
Qed.

(** C8, as stated, does not hold: no tree and no search input make the
    scan end with more than 20 results. *)
Lemma no_search_exceeds_20 :
  ¬ ∃ (searchTerm : string) (fileType : FileType) (directory : string) (root : Dirent),
      (20 < length (results (search searchTerm fileType directory root).1))%nat.
Proof.
  intros (term & ft & dir & root & H).
  pose proof (scanDirectory_bound term ft root [dir] scan_start) as Hb.
  unfold count in Hb. unfold search in H. simpl in Hb. lia.
Qed.

(** A subtree of 25 matching files followed by 5 more in the parent: the
    scan stops at 20, inside the subtree, and the parent loop stops too. *)
Example deep_tree_stops_at_20 :
  let f := File "a.txt" (Resolved "") (Resolved {| size := 1; mtime := 1 |}) in
  let root := Directory "." (Directory "sub" (replicate 25 f) :: replicate 5 f) in
  let st := (search "a" all "." root).1 in
  length (results st) = 20%nat ∧ scannedFiles st = 20 ∧ matchedFiles st = 20.
Proof. vm_compute. done. Qed.

Lemma for_of_ext body1 body2 files st :
  Forall (fun file => ∀ st, body1 file st = body2 file st) files ->
  for_of body1 files st = for_of body2 files st.
Proof.
  intros Hall. revert st. induction Hall as [|file rest Hfile _ IH]; intros st; [done|].
  simpl. rewrite Hfile. destruct (body2 file st) as [st' [m|]]; [done|].
  by rewrite IH.
Qed.

Lemma for_of_map body (g : Dirent -> Dirent) files st :
  for_of body (map g files) st = for_of (fun file => body (g file)) files st.
Proof.
  revert st. induction files as [|file rest IH]; intros st; [done|].
  simpl. destruct (body (g file) st) as [st' [m|]]; [done|]. by rewrite IH.
Qed.

Lemma hide_name d : dirent_name (hide d) = dirent_name d.
Proof. by destruct d. Qed.

Lemma scanDirectory_hide term ft d :
  ∀ dir st, scanDirectory term ft dir (hide d) st = scanDirectory term ft dir d st.
Proof.
  induction d as [n c s|n files IH|n m] using Dirent_tree_ind; intros dir st;
    [done| |done].
  simpl. rewrite for_of_map. apply for_of_ext.
  eapply Forall_impl; [exact IH|]. intros file Hfile st'. simpl in Hfile.
  destruct file as [fn fc fs|dn des|dn dm]; [done| |].
  - simpl isDirectory. simpl dirent_name. cbv beta iota.
    destruct (skipped dn) eqn:Hs; simpl.
    + by rewrite Hs.
    + rewrite Hs. simpl. apply (Hfile (path_join dir dn) st').
  - simpl isDirectory. simpl dirent_name. cbv beta iota.
    destruct (skipped dn) eqn:Hs; simpl; by rewrite Hs.
Qed.

Lemma for_of_results (Q : Found -> Prop) body files st :
  Forall (fun file => ∀ st, Forall Q (results st) -> Forall Q (results (body file st).1))
         files ->
  Forall Q (results st) -> Forall Q (results (for_of body files st).1).
Proof.
  intros Hall. revert st. induction Hall as [|file rest Hfile _ IH]; intros st Hst; [done|].
  simpl. specialize (Hfile st Hst).
  destruct (body file st) as [st' [m|]]; simpl in *; [done|].
  destruct (20 <=? Z.of_nat (length (results st'))); simpl; [done|]. by apply IH.
Qed.

Lemma scanDirectory_paths term ft d (Q : Found -> Prop) :
  ∀ dir st,
    (∀ r, reached_from dir r -> Q r) ->
    Forall Q (results st) ->
    Forall Q (results (scanDirectory term ft dir d st).1).
Proof.
  induction d as [n c s|n files IH|n m] using Dirent_tree_ind; intros dir st HQ Hst;
    [done| |done].
  simpl. apply for_of_results; [|done].
  eapply Forall_impl; [exact IH|]. intros file Hfile st' Hst'. simpl in Hfile.
  destruct file as [fn fc fs|dn des|dn dm].
  - simpl. unfold scan_file. destruct (isMatch term ft fn fc); simpl; [|done].
    apply Forall_app. split; [done|]. constructor; [|constructor].
    apply HQ. exists []. simpl. split; [done|constructor].
  - simpl dirent_name. destruct (skipped dn) eqn:Hs; simpl; [done|].
    apply Hfile; [|done]. intros r (mids & Hp & Hm). apply HQ.
    exists (dn :: mids). split; [|by constructor].
    rewrite Hp. unfold path_join. by rewrite <- app_assoc.
  - simpl dirent_name. destruct (skipped dn) eqn:Hs; simpl; done.
Qed.

(** C9. The scan never enters a sub-directory named [node_modules] or
    [.git]: whatever such directories contain, the results, [scannedFiles]
    and [matchedFiles] are those of the tree in which they are empty, and
    the path of every result leads from the searched directory to the
    file through directories of other names only. *)
Theorem skipped_directories_never_scanned (searchTerm : string)
    (fileType : FileType) (directory : string) (root : Dirent) :
  search searchTerm fileType directory (hide root)
  = search searchTerm fileType directory root
  ∧ Forall (reached_from [directory])
           (results (search searchTerm fileType directory root).1).
Proof.
  split.
  - apply scanDirectory_hide.
  - apply scanDirectory_paths; [done|constructor].
Qed.

(** Files below [node_modules] and [.git] are not counted; the guard is
    on the entries of a directory, not on the searched directory itself. *)
Example skipped_below_the_root_only :
  let f := File "a.txt" (Resolved "") (Resolved {| size := 1; mtime := 1 |}) in
  let inside := Directory "." [f; Directory "node_modules" [f; f]; Directory ".git" [f]] in
  let itself := Directory "node_modules" [f; f] in
  scannedFiles (search "a" all "." inside).1 = 1
  ∧ map found_path (results (search "a" all "." inside).1) = [["."; "a.txt"]]
  ∧ scannedFiles (search "a" all "node_modules" itself).1 = 2.
Proof. vm_compute. done. Qed.

End FileSearchFacts.

(** ** Dispatcher and session table *)

Module IndexFacts.
Import Js Tools Mcp Index.

Lemma is_uuid_truthy sid : is_uuid sid = true -> truthy sid = true.
Proof. by destruct sid. Qed.

Lemma is_uuid_not_inherited sid : is_uuid sid = true -> sid ∉ Object_prototype.
Proof.
  intros H Hin. unfold Object_prototype in Hin.
  repeat (apply elem_of_cons in Hin as [->|Hin]; [by vm_compute in H|]).
  by apply elem_of_nil in Hin.
Qed.

Lemma get_own table key r : table !! key = Some r -> get table key = Own r.
Proof. unfold get. by intros ->. Qed.

Lemma get_missing table key :
  table !! key = None -> key ∉ Object_prototype -> get table key = Undefined.
Proof. unfold get. intros -> H. by rewrite bool_decide_eq_false_2. Qed.

(** The state a handshake leaves. *)
Lemma post_handshake req env st :
  header_truthy (mcp_session_id req) = false -> body req = Initialize ->
  post req env st
  = (Handled (length (heap st)) (Initialized (randomUUID env)),
     {| transports := <[randomUUID env := length (heap st)]> (transports st);
        heap := heap st ++ [{| sessionId := Some (randomUUID env); closed := false |}];
        server := server st |}).
Proof.
  intros Hh Hb. unfold post. rewrite Hh, Hb. simpl.
  unfold handleRequest. simpl.
  rewrite list_lookup_middle by done. simpl.
  unfold onsessioninitialized, set_transport. simpl. do 2 f_equal.
  rewrite insert_app_r_alt by lia. by rewrite Nat.sub_diag.
Qed.

(** The state a closing transport leaves. *)
Lemma close_spec st r sid c :
  heap st !! r = Some {| sessionId := Some sid; closed := c |} -> truthy sid = true ->
  close r st
  = {| transports := delete sid (transports st);
       heap := <[r := {| sessionId := Some sid; closed := true |}]> (heap st);
       server := server st |}.
Proof.
  intros Hr Hs. unfold close. rewrite Hr. unfold onclose, set_transport. simpl.
  rewrite list_lookup_insert_eq by (by eapply lookup_lt_Some). simpl. by rewrite Hs.
Qed.

Lemma well_formed_start : well_formed start.
Proof.
  split; simpl.
  - intros sid r H. by rewrite lookup_empty in H.
  - intros r t H. by rewrite lookup_nil in H.
  - intros r1 r2 t1 t2 H. by rewrite lookup_nil in H.
  - intros t H. by apply elem_of_nil in H.
  - done.
Qed.

Lemma well_formed_handshake st sid :
  well_formed st -> is_uuid sid = true -> unused sid st ->
  well_formed
    {| transports := <[sid := length (heap st)]> (transports st);
       heap := heap st ++ [{| sessionId := Some sid; closed := false |}];
       server := server st |}.
Proof.
  intros [Ht Ho Hi Hu Hs] Huuid Hfresh. split; simpl.
  - intros sid' r. destruct (decide (sid = sid')) as [<-|Hne].
    + rewrite lookup_insert_eq. intros [= <-]. by rewrite list_lookup_middle.
    + rewrite lookup_insert_ne by done. intros H.
      specialize (Ht _ _ H). rewrite lookup_app_l; [done|by eapply lookup_lt_Some].
  - intros r t Hr Hc. destruct (decide (r < length (heap st))%nat) as [Hlt|Hge].
    + rewrite lookup_app_l in Hr by done.
      destruct (Ho _ _ Hr Hc) as (sid' & Hsid & Htab). exists sid'. split; [done|].
      rewrite lookup_insert_ne; [done|]. intros <-.
      by apply (Hfresh t); [eapply list_elem_of_lookup_2|].
    + rewrite lookup_app_r in Hr by lia.
      destruct (r - length (heap st))%nat as [|k] eqn:Hk; simpl in Hr; [|by destruct k].
      injection Hr as <-. exists sid. split; [done|].
      replace r with (length (heap st)) by lia. apply lookup_insert_eq.
  - intros r1 r2 t1 t2 H1 H2 Heq.
    destruct (decide (r1 < length (heap st))%nat) as [Hlt1|Hge1];
      destruct (decide (r2 < length (heap st))%nat) as [Hlt2|Hge2].
    + rewrite lookup_app_l in H1, H2 by done. by eapply Hi.
    + rewrite lookup_app_l in H1 by done. rewrite lookup_app_r in H2 by lia.
      destruct (r2 - length (heap st))%nat as [|k]; simpl in H2; [|by destruct k].
      injection H2 as <-. simpl in Heq.
      by destruct (Hfresh t1); [eapply list_elem_of_lookup_2|].
    + rewrite lookup_app_l in H2 by done. rewrite lookup_app_r in H1 by lia.
      destruct (r1 - length (heap st))%nat as [|k]; simpl in H1; [|by destruct k].
      injection H1 as <-. simpl in Heq.
      by destruct (Hfresh t2); [eapply list_elem_of_lookup_2|].
    + apply lookup_lt_Some in H1, H2. rewrite length_app in H1, H2. simpl in *. lia.
  - intros t [Hin|Hin%list_elem_of_singleton]%elem_of_app; [by apply Hu|].
    subst t. by exists sid.
  - done.
Qed.

Lemma well_formed_close st r :
  well_formed st -> well_formed (close r st).
Proof.
  intros Hwf. destruct (heap st !! r) as [[osid c]|] eqn:Hr;
    [|by unfold close; rewrite Hr].
  destruct Hwf as [Ht Ho Hi Hu Hs].
  destruct (Hu _ (list_elem_of_lookup_2 _ _ _ Hr)) as (sid & Hsid & Huuid).
  simpl in Hsid. subst osid.
  rewrite (close_spec st r sid c Hr (is_uuid_truthy _ Huuid)).
  assert (r < length (heap st))%nat as Hlt by (by eapply lookup_lt_Some).
  split; simpl.
  - intros sid' r' H. apply lookup_delete_Some in H as [Hne H].
    pose proof (Ht _ _ H) as Hr'.
    rewrite list_lookup_insert_ne; [done|]. intros <-. congruence.
  - intros r' t Hr' Hc. destruct (decide (r = r')) as [<-|Hne].
    + rewrite list_lookup_insert_eq in Hr' by done. injection Hr' as <-. done.
    + rewrite list_lookup_insert_ne in Hr' by done.
      destruct (Ho _ _ Hr' Hc) as (sid' & Hsid' & Htab). exists sid'. split; [done|].
      rewrite lookup_delete_ne; [done|]. intros <-.
      apply Hne. eapply Hi; [exact Hr|exact Hr'|]. by rewrite Hsid'.
  - intros r1 r2 t1 t2 H1 H2 Heq.
    assert (∀ r' t', <[r := {| sessionId := Some sid; closed := true |}]> (heap st) !! r'
                     = Some t' ->
                     ∃ t'', heap st !! r' = Some t'' ∧ sessionId t'' = sessionId t') as Hsame.
    { intros r' t' H'. destruct (decide (r = r')) as [<-|Hne].
      - rewrite list_lookup_insert_eq in H' by done. injection H' as <-. eauto.
      - rewrite list_lookup_insert_ne in H' by done. eauto. }
    destruct (Hsame _ _ H1) as (u1 & Hu1 & He1), (Hsame _ _ H2) as (u2 & Hu2 & He2).
    eapply Hi; [exact Hu1|exact Hu2|congruence].
  - intros t Hin. apply list_elem_of_lookup_1 in Hin as [r' Hr'].
    destruct (decide (r = r')) as [<-|Hne].
    + rewrite list_lookup_insert_eq in Hr' by done. injection Hr' as <-. by exists sid.
    + rewrite list_lookup_insert_ne in Hr' by done.
      by eapply Hu, list_elem_of_lookup_2.
  - done.
Qed.

Lemma handleRequest_state st r method b env :
  well_formed st ->
  (handleRequest r method b env st).2 = st
  ∨ (handleRequest r method b env st).2 = close r st.
Proof.
  intros Hwf. unfold handleRequest.
  destruct (heap st !! r) as [t|] eqn:Hr; [|by left].
  destruct (wf_uuid st Hwf t (list_elem_of_lookup_2 _ _ _ Hr)) as (sid & Hsid & _).
  destruct method; [|by left|by right].
  destruct b; try (by left). rewrite Hsid. by left.
Qed.

Lemma route_found st sid r method b env :
  truthy sid = true -> transports st !! sid = Some r ->
  route method {| mcp_session_id := Some sid; body := b |} env st
  = handleRequest r method b env st.
Proof.
  intros Hs Hr.
  destruct method; unfold route, post, handleSessionRequest; simpl;
    by rewrite Hs, (get_own _ _ _ Hr).
Qed.

Lemma route_rejected st req method env :
  match mcp_session_id req with
  | None => True
  | Some sid =>
      truthy sid = false ∨ (transports st !! sid = None ∧ sid ∉ Object_prototype)
  end ->
  (header_truthy (mcp_session_id req) = false -> isInitializeRequest (body req) = false) ->
  route method req env st
  = (Respond 400 match method with
                 | POST => JsonBody error_envelope
                 | _ => TextBody "Invalid or missing session ID"
                 end, st).
Proof.
  intros Hsid Hinit. destruct req as [[sid|] b]; simpl in *.
  - destruct (truthy sid) eqn:Hs.
    + destruct Hsid as [?|[Hnone Hproto]]; [done|].
      destruct method; unfold route, post, handleSessionRequest; simpl;
        by rewrite Hs, (get_missing _ _ Hnone Hproto).
    + destruct method; unfold route, post, handleSessionRequest; simpl;
        rewrite Hs; simpl; [|done..]. by rewrite Hinit.
  - destruct method; unfold route, post, handleSessionRequest; simpl; [|done..].
    by rewrite Hinit.
Qed.

Lemma well_formed_step e st :
  well_formed st -> possible e st -> well_formed (step e st).
Proof.
  intros Hwf Hp. destruct e as [method req env|r]; simpl; [|by apply well_formed_close].
  destruct Hp as [Huuid Hfresh].
  assert (∀ r, well_formed (handleRequest r method (body req) env st).2) as Hfwd.
  { intros r. destruct (handleRequest_state st r method (body req) env Hwf) as [->| ->];
      [done|by apply well_formed_close]. }
  destruct method; unfold route, post, handleSessionRequest.
  - destruct (header_truthy (mcp_session_id req)) eqn:Hh.
    + destruct (get _ _); [apply Hfwd|done|done].
    + simpl. destruct (isInitializeRequest (body req)) eqn:Hb; [|done].
      assert (body req = Initialize) as Hbody by (by destruct (body req)).
      pose proof (post_handshake req env st Hh Hbody) as Hpost.
      unfold post in Hpost. rewrite Hh in Hpost. simpl in Hpost.
      rewrite Hb in Hpost. rewrite Hpost. simpl.
      by apply well_formed_handshake.
  - destruct (header_truthy (mcp_session_id req)); [|done].
    destruct (get _ _); [apply Hfwd|done|done].
  - destruct (header_truthy (mcp_session_id req)); [|done].
    destruct (get _ _); [apply Hfwd|done|done].
Qed.

Lemma reachable_well_formed st : reachable st -> well_formed st.
Proof.
  induction 1 as [|e st _ IH Hp]; [apply well_formed_start|by apply well_formed_step].
Qed.

Lemma reachable_one_session : reachable Samples.one_session.
Proof.
  apply reachable_step; [apply reachable_start|].
  split; [done|]. intros t Ht. by apply elem_of_nil in Ht.
Qed.





(** C2, amended. A request that names no session of the table and is
    not a handshake is rejected with status 400 and leaves the state as
    it was: on the POST route with the JSON error envelope, on the GET
    and DELETE routes with the plain text [Invalid or missing session
    ID]. Session ids that are names inherited by every object are left
    aside. *)
Theorem invalid_session_rejected (st : State) (req : Request) (env : Env) :
  no_session req st -> isInitializeRequest (body req) = false ->
  route POST req env st = (Respond 400 (JsonBody error_envelope), st)
  ∧ route GET req env st = (Respond 400 (TextBody "Invalid or missing session ID"), st)
  ∧ route DELETE req env st = (Respond 400 (TextBody "Invalid or missing session ID"), st).
Proof.
  intros Hno Hinit. split_and!.
  - by apply (route_rejected st req POST).
  - by apply (route_rejected st req GET).
  - by apply (route_rejected st req DELETE).
Qed.

Lemma invalid_session_rejected_witness :
  route POST Samples.list_query Samples.first_env start
  = (Respond 400 (JsonBody error_envelope), start).
Proof.
  apply (invalid_session_rejected start Samples.list_query Samples.first_env);
    [exact I | reflexivity].
Defined.

(** C2 as stated fails on the GET route: a GET without session id is
    answered with a plain text, not with the JSON error envelope. *)
Lemma get_rejection_is_not_the_envelope :
  no_session Samples.list_query start
  ∧ isInitializeRequest (body Samples.list_query) = false
  ∧ route GET Samples.list_query Samples.first_env start
    = (Respond 400 (TextBody "Invalid or missing session ID"), start)
  ∧ route GET Samples.list_query Samples.first_env start
    ≠ (Respond 400 (JsonBody error_envelope), start).
Proof. split_and!; [exact I|reflexivity|reflexivity|discriminate]. Qed.

(** A session id that names an inherited property passes the look-up of
    both routes; the call of [handleRequest] on what was found throws. *)
Example inherited_name_passes_the_lookup :
  route POST {| mcp_session_id := Some "constructor"; body := ToolsList |}
        Samples.first_env start
  = (Threw "transport.handleRequest is not a function", start)
  ∧ route DELETE {| mcp_session_id := Some "toString"; body := OtherBody |}
          Samples.first_env start
    = (Threw "transport.handleRequest is not a function", start).
Proof. split; reflexivity. Qed.

(** C3. Terminating an active session, by a DELETE that carries its id
    or by the closure of its transport, removes exactly its entry from
    the table; every request that carries the id afterwards is rejected
    as [InvalidSession] and changes nothing; a second closure of the
    transport changes nothing either. *)
Theorem termination_removes_session (st : State) (sid : string) (r : nat)
    (b : Body) (env : Env) :
  reachable st -> transports st !! sid = Some r ->
  let st1 := step (Closure r) st in
  route DELETE {| mcp_session_id := Some sid; body := b |} env st
  = (Handled r Terminated, st1)
  ∧ transports st1 = delete sid (transports st)
  ∧ heap st1 !! r = Some {| sessionId := Some sid; closed := true |}
  ∧ (∀ method b' env',
       InvalidSession (route method {| mcp_session_id := Some sid; body := b' |} env' st1).1
       ∧ (route method {| mcp_session_id := Some sid; body := b' |} env' st1).2 = st1)
  ∧ step (Closure r) st1 = st1.
Proof.
  intros Hreach Htab st1. pose proof (reachable_well_formed _ Hreach) as Hwf.
  pose proof (wf_table st Hwf _ _ Htab) as Hr.
  destruct (wf_uuid st Hwf _ (list_elem_of_lookup_2 _ _ _ Hr)) as (sid' & [= <-] & Huuid).
  pose proof (is_uuid_truthy _ Huuid) as Htruthy.
  assert (r < length (heap st))%nat as Hlt by (by eapply lookup_lt_Some).
  assert (st1 = {| transports := delete sid (transports st);
                   heap := <[r := {| sessionId := Some sid; closed := true |}]> (heap st);
                   server := server st |}) as Hst1.
  { unfold st1. simpl. by eapply close_spec. }
  assert (heap st1 !! r = Some {| sessionId := Some sid; closed := true |}) as Hr1.
  { rewrite Hst1. simpl. by apply list_lookup_insert_eq. }
  split_and!.
  - rewrite (route_found st sid r) by done. unfold handleRequest. by rewrite Hr.
  - by rewrite Hst1.
  - done.
  - intros method b' env'.
    rewrite (route_rejected st1 _ method env').
    + split; [by eexists|done].
    + simpl. right. split; [|by apply is_uuid_not_inherited].
      rewrite Hst1. simpl. apply lookup_delete_eq.
    + simpl. by rewrite Htruthy.
  - simpl. rewrite (close_spec st1 r sid true Hr1 Htruthy).
    rewrite Hst1 at 3. rewrite Hst1. simpl.
    by rewrite delete_delete_eq, list_insert_insert_eq.
Qed.

Lemma termination_removes_session_witness :
  transports (step (Closure 0) Samples.one_session)
  = delete (randomUUID Samples.first_env) (transports Samples.one_session).
Proof.
  exact (proj1 (proj2
    (termination_removes_session Samples.one_session (randomUUID Samples.first_env) 0
       OtherBody Samples.first_env reachable_one_session eq_refl))).
Defined.

(** C4. In every state the server can reach, a session is in the table
    exactly when it is not closed. *)
Theorem table_holds_exactly_the_open_sessions (st : State) (r : nat) (t : Transport) :
  reachable st -> heap st !! r = Some t ->
  in_table r st ↔ closed t = false.
Proof.
  intros Hreach Hr. pose proof (reachable_well_formed _ Hreach) as Hwf. split.
  - intros [sid Htab]. pose proof (wf_table st Hwf _ _ Htab) as Hr'.
    rewrite Hr in Hr'. by injection Hr' as ->.
  - intros Hc. destruct (wf_open st Hwf _ _ Hr Hc) as (sid & _ & Htab). by exists sid.
Qed.

Lemma table_holds_exactly_the_open_sessions_witness :
  in_table 0 Samples.one_session
  ↔ closed {| sessionId := Some (randomUUID Samples.first_env); closed := false |} = false.
Proof.
  apply (table_holds_exactly_the_open_sessions Samples.one_session 0);
    [exact reachable_one_session | reflexivity].
Defined.

(** The tool list a session answers with is the same in every state. *)
Lemma tool_list_is_stable st sid r env :
  reachable st -> transports st !! sid = Some r ->
  route POST {| mcp_session_id := Some sid; body := ToolsList |} env st
  = (Handled r (Tools (list_tools registered)), st).
Proof.
  intros Hreach Htab. pose proof (reachable_well_formed _ Hreach) as Hwf.
  pose proof (wf_table st Hwf _ _ Htab) as Hr.
  destruct (wf_uuid st Hwf _ (list_elem_of_lookup_2 _ _ _ Hr)) as (sid' & [= <-] & Huuid).
  rewrite (route_found st sid r) by (by try apply is_uuid_truthy).
  unfold handleRequest. rewrite Hr. by rewrite (wf_server st Hwf).
Qed.

End IndexFacts.

(** ** Registry and tools *)

Module ToolsFacts.
Import Js Tools Mcp.

Lemma resolve_absent (reg : Registry) n :
  n ∉ map (fun t => name (descriptor t)) reg -> resolve reg n = None.
Proof.
  induction reg as [|t reg IH]; [done|]. simpl. intros [Hne Hn]%not_elem_of_cons.
  rewrite bool_decide_eq_false_2 by done. by apply IH.
Qed.

Lemma register_all_append (tools reg : Registry) :
  NoDup (map (fun t => name (descriptor t)) (reg ++ tools)) ->
  register_all tools reg = Resolved (reg ++ tools).
Proof.
  revert reg. induction tools as [|t tools IH]; intros reg Hnd; simpl.
  - by rewrite app_nil_r.
  - rewrite map_app in Hnd. simpl in Hnd.
    pose proof Hnd as Hnd'. apply NoDup_app in Hnd' as (_ & Hdisj & _).
    unfold register. rewrite resolve_absent.
    + destruct t as [d h]. simpl. rewrite IH; rewrite <- app_assoc; [done|].
      by rewrite map_app.
    + intros Hin. apply (Hdisj _ Hin). simpl. apply elem_of_cons. by left.
Qed.

(** C6. Registering tools with distinct names, in order, succeeds, and
    the tool list is then the sequence of the registered descriptors
    (name, description and input schema unchanged), one per tool, in the
    order of registration; the list is a function of the registry alone,
    so every query returns it. *)
Theorem list_after_registration (tools : list Tool) :
  NoDup (map (fun t => name (descriptor t)) tools) ->
  ∃ reg, register_all tools [] = Resolved reg
         ∧ list_tools reg = map descriptor tools
         ∧ length (list_tools reg) = length tools.
Proof.
  intros Hnd. exists tools. split_and!.
  - by apply (register_all_append tools []).
  - done.
  - unfold list_tools. apply length_map.
Qed.

Lemma registered_names_distinct :
  NoDup (map (fun t => name (descriptor t)) Index.registered).
Proof. apply (bool_decide_unpack _). by vm_compute. Qed.

Lemma list_after_registration_witness :
  ∃ reg, register_all Index.registered [] = Resolved reg
         ∧ list_tools reg = map descriptor Index.registered
         ∧ length (list_tools reg) = length Index.registered.
Proof. apply list_after_registration. exact registered_names_distinct. Defined.

(** [registerTools] of tools.js is such a registration, of ten tools. *)
Lemma registerTools_registers_in_order :
  ToolsJs.registerTools [] = register_all Index.registered []
  ∧ ToolsJs.registerTools [] = Resolved Index.registered
  ∧ map name (list_tools Index.registered)
    = ["print-menu"; "news-by-topic"; "adder"; "twitter-X-post"; "wikipedia-search";
       "github-repo-info"; "movie-ratings"; "local-file-search"; "truth_table";
       "define_word"].
Proof. split_and!; reflexivity. Qed.

(** A name registered twice is refused. *)
Example duplicate_name_refused :
  and_then (ToolsBasicJs.registerTools []) ToolsBasicJs.registerTools
  = Rejected "DuplicateToolName: adder".
Proof. reflexivity. Qed.

(** C7. Invoking the registered tool [adder] with [a = 2] and [b = 3]
    returns one text block, whose text contains [5]; so it is for the
    registry of tools.js and for that of tools-basic.js. *)
Theorem adder_2_3 (w : World) :
  let args : Args := <["a" := VNumber 2]> (<["b" := VNumber 3]> ∅) in
  let sum_text :=
    FORMAT.GREEN +:+ "Result:" +:+ FORMAT.RESET +:+ " The sum of "
    +:+ FORMAT.BOLD +:+ "2" +:+ FORMAT.RESET +:+ " and "
    +:+ FORMAT.BOLD +:+ "3" +:+ FORMAT.RESET +:+ " is "
    +:+ FORMAT.CYAN +:+ "5" +:+ FORMAT.RESET +:+ "." +:+ NL in
  and_then (ToolsJs.registerTools [])
    (fun server => Resolved (callTool server "adder" args w))
  = Resolved [text_block sum_text]
  ∧ and_then (ToolsBasicJs.registerTools [])
      (fun server => Resolved (callTool server "adder" args w))
    = Resolved [text_block sum_text]
  ∧ includes sum_text "5" = true.
Proof. split_and!; reflexivity. Qed.


Lemma startsWith_append p s : startsWith p (p +:+ s) = true.
Proof.
  induction p as [|c p IH]; [by destruct s|].
  change (startsWith (String c p) (String c (p +:+ s)) = true).
  simpl. by rewrite decide_True.
Qed.


Lemma includes_start s p : startsWith p s = true -> includes s p = true.
Proof. intros H. destruct s; simpl; by rewrite H. Qed.

Lemma includes_here p s : includes (p +:+ s) p = true.
Proof. apply includes_start, startsWith_append. Qed.


Lemma includes_later a s p : includes s p = true -> includes (a +:+ s) p = true.
Proof.
  intros H. induction a as [|c a IH]; [done|].
  change (includes (String c (a +:+ s)) p = true).
  simpl. rewrite IH. apply orb_true_r.
Qed.



Ltac innermost_case :=
  match goal with
  | |- context [match ?x with _ => _ end] =>
      lazymatch x with
      | context [match _ with _ => _ end] => fail
      | _ => destruct x eqn:?
      end
  end.

Ltac handler_cases := repeat innermost_case; simpl; try done; try (by eexists).

Lemma file_type_of_option s :
  s ∈ ["all"; "name"; "extension"; "content"] -> is_Some (file_type_of s).
Proof.
  intros Hs. repeat (apply elem_of_cons in Hs as [->|Hs]); [by eexists..|].
  by apply elem_of_nil in Hs.
Qed.






(** For all integers the text of [adder] shows their sum. *)
Lemma adder_shows_the_sum (a b : Z) (w : World) :
  ∃ t, adder (<["a" := VNumber a]> (<["b" := VNumber b]> ∅)) w = Resolved [text_block t]
       ∧ includes t (num (a + b)) = true.
Proof.
  unfold adder. rewrite lookup_insert_eq, lookup_insert_ne, lookup_insert_eq by done.
  eexists. split; [done|]. do 13 apply includes_later. apply includes_here.
Qed.

End ToolsFacts.

(** ** Tool failures inside a session *)

Module SessionFacts.
Import Js Tools Mcp Index Failures.




End SessionFacts.

(** ** File search: what is found, and in which order *)

Module FileSearchListingFacts.
Import Js FileSearch FileSearchListing.

Lemma scan_file_found term ft fullPath n c s st :
  scan_file term ft fullPath n c s st
  = {| results := results st
                  ++ (if isMatch term ft n c then [found_of fullPath n s] else []);
       scannedFiles := scannedFiles st + 1;
       matchedFiles := matchedFiles st + (if isMatch term ft n c then 1 else 0) |}.
Proof.
  unfold scan_file, found_of. destruct (isMatch term ft n c); simpl.
  - done.
  - by rewrite app_nil_r, Z.add_0_r.
Qed.

(** A relation between the state before and after, kept by every file
    visited, is kept by a whole scan, however it ends. *)
Lemma for_of_related (R : Scan -> Scan -> Prop) body files st :
  (∀ a, R a a) -> (∀ a b c, R a b -> R b c -> R a c) ->
  Forall (fun file => ∀ a, R a (body file a).1) files ->
  R st (for_of body files st).1.
Proof.
  intros Hrefl Htrans Hall. revert st.
  induction Hall as [|file rest Hfile _ IH]; intros st; simpl; [done|].
  specialize (Hfile st). destruct (body file st) as [st' [m|]]; simpl in *; [done|].
  destruct (20 <=? _); simpl; [done|]. by eapply Htrans.
Qed.

Lemma scanDirectory_related (R : Scan -> Scan -> Prop) term ft :
  (∀ a, R a a) -> (∀ a b c, R a b -> R b c -> R a c) ->
  (∀ fullPath n c s a, R a (scan_file term ft fullPath n c s a)) ->
  ∀ d dir st, R st (scanDirectory term ft dir d st).1.
Proof.
  intros Hrefl Htrans Hfile.
  induction d as [n c s|n files IH|n m] using FileSearchFacts.Dirent_tree_ind;
    intros dir st; simpl; [done| |done].
  apply for_of_related; [done..|].
  eapply Forall_impl; [exact IH|]. intros file Hrec a. simpl in Hrec.
  destruct file as [fn fc fs|dn des|dn dm]; simpl.
  - apply Hfile.
  - destruct (skipped dn); simpl; [done|apply (Hrec (path_join dir dn))].
  - destruct (skipped dn); simpl; [done|apply (Hrec (path_join dir dn))].
Qed.

(** X3. However a search ends, also when it is aborted by an error,
    [matchedFiles] equals the number of results and does not exceed
    [scannedFiles]. *)
Theorem counters_agree (searchTerm : string) (fileType : FileType)
    (directory : string) (root : Dirent) :
  let st := (search searchTerm fileType directory root).1 in
  matchedFiles st = Z.of_nat (length (results st))
  ∧ matchedFiles st <= scannedFiles st
  ∧ 0 <= matchedFiles st.
Proof.
  set (R := fun a b : Scan =>
              matchedFiles b - matchedFiles a
              = Z.of_nat (length (results b)) - Z.of_nat (length (results a))
              ∧ 0 <= matchedFiles b - matchedFiles a
                <= scannedFiles b - scannedFiles a).
  assert (R scan_start (search searchTerm fileType directory root).1) as [H1 H2].
  { apply (scanDirectory_related R); unfold R.
    - intros a. lia.
    - intros a b c. lia.
    - intros fullPath n c s a. rewrite scan_file_found. simpl.
      rewrite length_app. destruct (isMatch _ _ _ _); simpl; lia. }
  simpl in *. lia.
Qed.

Lemma flat_map_flat_map {A B C : Type} (f : B -> list C) (g : A -> list B) l :
  flat_map f (flat_map g l) = flat_map (fun x => flat_map f (g x)) l.
Proof.
  induction l as [|x l IH]; simpl; [done|]. by rewrite flat_map_app, IH.
Qed.

Lemma matches_directory term ft dir n files :
  matches term ft dir (Directory n files) = flat_map (entry_matches term ft dir) files.
Proof.
  unfold matches. simpl. rewrite flat_map_flat_map. apply flat_map_ext.
  intros [fn fc fs|dn des|dn dm]; simpl.
  - by rewrite app_nil_r.
  - by destruct (skipped dn).
  - by destruct (skipped dn).
Qed.

Lemma visible_directory dir n files :
  visible_files dir (Directory n files)
  = flat_map
      (fun file =>
         match file with
         | File fname contents stat => [(path_join dir fname, (fname, contents, stat))]
         | _ => if negb (skipped (dirent_name file))
                then visible_files (path_join dir (dirent_name file)) file else []
         end) files.
Proof. simpl. apply flat_map_ext. by intros [fn fc fs|dn des|dn dm]. Qed.

Lemma for_of_prefix body (M : Dirent -> list Found) files :
  Forall (fun file => ∀ st st',
            body file st = (st', None) -> (length (results st) < 20)%nat ->
            results st' = results st ++ take (20 - length (results st)) (M file)) files ->
  ∀ st st',
    for_of body files st = (st', None) -> (length (results st) < 20)%nat ->
    results st' = results st ++ take (20 - length (results st)) (flat_map M files).
Proof.
  induction 1 as [|file rest Hfile _ IH]; intros st st' Hrun Hst; simpl in *.
  - injection Hrun as <-. by rewrite take_nil, app_nil_r.
  - destruct (body file st) as [st1 [m|]] eqn:Hbody; [done|].
    specialize (Hfile st st1 Hbody Hst).
    assert (length (results st1)
            = (length (results st)
               + length (take (20 - length (results st)) (M file)))%nat) as Hlen.
    { by rewrite Hfile, length_app. }
    rewrite length_take in Hlen.
    destruct (20 <=? Z.of_nat (length (results st1))) eqn:Hcap.
    + injection Hrun as <-. apply Z.leb_le in Hcap.
      rewrite Hfile. f_equal. rewrite take_app_le; [done|lia].
    + apply Z.leb_gt in Hcap.
      rewrite (IH st1 st' Hrun) by lia. rewrite Hfile, <- app_assoc. f_equal.
      assert (length (M file) < 20 - length (results st))%nat as Hshort by lia.
      rewrite (take_ge (M file)) by lia.
      rewrite take_app_ge by lia. do 2 f_equal.
      rewrite length_app. lia.
Qed.

Lemma scanDirectory_prefix term ft d :
  ∀ dir st st',
    scanDirectory term ft dir d st = (st', None) -> (length (results st) < 20)%nat ->
    results st' = results st ++ take (20 - length (results st)) (matches term ft dir d).
Proof.
  induction d as [n c s|n files IH|n m] using FileSearchFacts.Dirent_tree_ind;
    intros dir st st' Hrun Hst; [done| |done].
  rewrite matches_directory. simpl in Hrun.
  eapply for_of_prefix; [|exact Hrun|exact Hst].
  eapply Forall_impl; [exact IH|]. intros file Hrec a b Hbody Ha. simpl in Hrec.
  destruct file as [fn fc fs|dn des|dn dm]; simpl in *.
  - injection Hbody as <-. rewrite scan_file_found. simpl. f_equal.
    rewrite take_ge; [done|]. destruct (isMatch _ _ _ _); simpl; lia.
  - destruct (skipped dn); simpl in *.
    + injection Hbody as <-. by rewrite take_nil, app_nil_r.
    + by apply Hrec.
  - destruct (skipped dn); simpl in *; [|done].
    injection Hbody as <-. by rewrite take_nil, app_nil_r.
Qed.

(** X1. A search that is not aborted by an error returns the first 20
    matching files of the tree, in the order in which directories list
    their entries, sub-directories being searched where they are listed;
    fewer when fewer match. *)
Theorem search_returns_first_20_matches (searchTerm : string) (fileType : FileType)
    (directory : string) (root : Dirent) (st : Scan) :
  search searchTerm fileType directory root = (st, None) ->
  results st = take 20 (matches searchTerm fileType [directory] root).
Proof.
  intros Hrun.
  apply (scanDirectory_prefix searchTerm fileType root [directory] scan_start st Hrun).
  simpl. lia.
Qed.

Lemma search_returns_first_20_matches_witness :
  results (search "notes" all "." SampleTrees.project).1
  = take 20 (matches "notes" all ["."] SampleTrees.project).
Proof.
  apply (search_returns_first_20_matches "notes" all "." SampleTrees.project).
  vm_compute. reflexivity.
Defined.

Lemma for_of_scanned body (V : Dirent -> Z) files :
  Forall (fun file => ∀ st st',
            body file st = (st', None) -> (length (results st') < 20)%nat ->
            scannedFiles st' = scannedFiles st + V file) files ->
  ∀ st st',
    for_of body files st = (st', None) -> (length (results st') < 20)%nat ->
    scannedFiles st' = scannedFiles st + foldr (fun file n => V file + n) 0 files.
Proof.
  induction 1 as [|file rest Hfile _ IH]; intros st st' Hrun Hst'; simpl in *.
  - injection Hrun as <-. lia.
  - destruct (body file st) as [st1 [m|]] eqn:Hbody; [done|].
    destruct (20 <=? Z.of_nat (length (results st1))) eqn:Hcap.
    + injection Hrun as <-. apply Z.leb_le in Hcap. lia.
    + apply Z.leb_gt in Hcap.
      rewrite (IH st1 st' Hrun Hst'), (Hfile st st1 Hbody) by lia. lia.
Qed.

Lemma scanDirectory_scanned term ft d :
  ∀ dir st st',
    scanDirectory term ft dir d st = (st', None) -> (length (results st') < 20)%nat ->
    scannedFiles st' = scannedFiles st + Z.of_nat (length (visible_files dir d)).
Proof.
  induction d as [n c s|n files IH|n m] using FileSearchFacts.Dirent_tree_ind;
    intros dir st st' Hrun Hst'; [done| |done].
  rewrite visible_directory. simpl in Hrun.
  set (V := fun file : Dirent =>
              Z.of_nat (length
                match file with
                | File fname contents stat =>
                    [(path_join dir fname, (fname, contents, stat))]
                | _ => if negb (skipped (dirent_name file))
                       then visible_files (path_join dir (dirent_name file)) file
                       else []
                end)).
  match type of Hrun with for_of ?b _ _ = _ => set (body := b) in * end.
  assert (Forall (fun file => ∀ a b,
                    body file a = (b, None) -> (length (results b) < 20)%nat ->
                    scannedFiles b = scannedFiles a + V file) files) as Hall.
  { eapply Forall_impl; [exact IH|]. intros file Hrec a b Hbody Hb.
    unfold body, V in *. simpl in Hrec.
    destruct file as [fn fc fs|dn des|dn dm]; simpl in *.
    - injection Hbody as <-. by rewrite scan_file_found.
    - destruct (skipped dn); simpl in *.
      + injection Hbody as <-. lia.
      + by apply Hrec.
    - destruct (skipped dn); simpl in *; [|done]. injection Hbody as <-. lia. }
  rewrite (for_of_scanned body V files Hall st st' Hrun Hst'). f_equal.
  clear. induction files as [|file rest IHf]; simpl; [done|].
  rewrite length_app, IHf. unfold V at 1. lia.
Qed.

(** X2. When a search ends without error and with fewer than 20 results,
    nothing was left out: the results are all the matching files of the
    tree outside [node_modules] and [.git], and [scannedFiles] is the
    number of all files there, matching or not. *)
Theorem search_below_the_cap_is_complete (searchTerm : string) (fileType : FileType)
    (directory : string) (root : Dirent) (st : Scan) :
  search searchTerm fileType directory root = (st, None) ->
  (length (results st) < 20)%nat ->
  results st = matches searchTerm fileType [directory] root
  ∧ scannedFiles st = Z.of_nat (length (visible_files [directory] root)).
Proof.
  intros Hrun Hlen. split.
  - pose proof (scanDirectory_prefix searchTerm fileType root [directory] scan_start st Hrun)
      as Hres.
    simpl in Hres. rewrite Hres in Hlen |- * by lia.
    rewrite length_take in Hlen. apply take_ge. lia.
  - by rewrite (scanDirectory_scanned searchTerm fileType root [directory] scan_start st Hrun).
Qed.

Lemma search_below_the_cap_is_complete_witness :
  results (search "notes" all "." SampleTrees.project).1
  = matches "notes" all ["."] SampleTrees.project
  ∧ scannedFiles (search "notes" all "." SampleTrees.project).1
    = Z.of_nat (length (visible_files ["."] SampleTrees.project)).
Proof.
  apply (search_below_the_cap_is_complete "notes" all "." SampleTrees.project).
  - vm_compute. reflexivity.
  - vm_compute. lia.
Defined.

(** The sample project: three files are visible, two match; the locked
    cache below [node_modules] is never read. *)
Example sample_project_search :
  map found_path (results (search "notes" all "." SampleTrees.project).1)
  = [["."; "Notes.TXT"]; ["."; "src"; "main.js"]; ["."; "src"; "notes.png"]]
  ∧ scannedFiles (search "notes" all "." SampleTrees.project).1 = 3.
Proof. by vm_compute. Qed.

(** X4. A search of type [all] matches a file exactly when one of the
    searches of type [name], [extension] or [content] matches it. *)
Theorem all_is_name_or_extension_or_content (searchTerm fname : string)
    (contents : Outcome string) :
  isMatch searchTerm all fname contents
  = isMatch searchTerm name fname contents
    || isMatch searchTerm extension fname contents
    || isMatch searchTerm content fname contents.
Proof.
  unfold isMatch. simpl.
  destruct (includes (toLowerCase fname) (toLowerCase searchTerm)); simpl; [done|].
  destruct (bool_decide (toLowerCase (slice1 (toLowerCase (extname fname)))
                         = toLowerCase searchTerm)
            || bool_decide (toLowerCase (toLowerCase (extname fname))
                            = toLowerCase searchTerm)); simpl; [done|].
  done.
Qed.

Lemma includes_empty s : includes s "" = true.
Proof. by destruct s. Qed.

Lemma matches_everything ft dir d :
  ft = all ∨ ft = name ->
  matches "" ft dir d
  = map (fun entry : Path * (string * Outcome string * Outcome Stats) =>
           found_of entry.1 entry.2.1.1 entry.2.2)
        (visible_files dir d).
Proof.
  intros Hft. unfold matches. induction (visible_files dir d) as [|[p [[n c] s]] l IH];
    simpl; [done|].
  rewrite IH. assert (isMatch "" ft n c = true) as ->; [|done].
  unfold isMatch. destruct Hft as [-> | ->]; simpl; by rewrite includes_empty.
Qed.

(** X6. With an empty search term a search of type [all] or [name]
    matches every file: it returns the first 20 files of the tree outside
    [node_modules] and [.git], whatever their names and contents. *)
Theorem empty_term_matches_every_file (fileType : FileType) (directory : string)
    (root : Dirent) (st : Scan) :
  fileType = all ∨ fileType = name ->
  search "" fileType directory root = (st, None) ->
  (∀ fname contents, isMatch "" fileType fname contents = true)
  ∧ map found_path (results st) = take 20 (map fst (visible_files [directory] root)).
Proof.
  intros Hft Hrun. split.
  - intros fname contents. unfold isMatch.
    destruct Hft as [-> | ->]; simpl; by rewrite includes_empty.
  - pose proof (scanDirectory_prefix "" fileType root [directory] scan_start st Hrun) as Hres.
    simpl in Hres. rewrite Hres by lia.
    rewrite matches_everything by done.
    generalize 20%nat. induction (visible_files [directory] root) as [|[p [[n c] s]] l IH];
      intros [|k]; simpl; [done..|]. by rewrite IH.
Qed.

Lemma empty_term_matches_every_file_witness :
  map found_path (results (search "" name "." SampleTrees.project).1)
  = take 20 (map fst (visible_files ["."] SampleTrees.project)).
Proof.
  apply (empty_term_matches_every_file name "." SampleTrees.project).
  - right. reflexivity.
  - vm_compute. reflexivity.
Defined.

Lemma insert_by_time_Permutation x l : insert_by_time x l ≡ₚ x :: l.
Proof.
  induction l as [|y r IH]; simpl; [done|].
  destruct (lastModified y <? lastModified x); [done|].
  rewrite IH. apply Permutation_swap.
Qed.

Lemma insert_by_time_sorted x l :
  StronglySorted newer_or_equal l -> StronglySorted newer_or_equal (insert_by_time x l).
Proof.
  induction 1 as [|y r Hs IH Hall]; simpl.
  - repeat constructor.
  - destruct (lastModified y <? lastModified x) eqn:Hlt.
    + apply Z.ltb_lt in Hlt. constructor; [by constructor|].
      constructor; [unfold newer_or_equal; lia|].
      eapply Forall_impl; [exact Hall|]. unfold newer_or_equal. intros z Hz. lia.
    + apply Z.ltb_ge in Hlt. constructor; [done|].
      rewrite insert_by_time_Permutation. by constructor.
Qed.

(** X7. The listing order: sorting keeps exactly the results found and
    puts them newest first. *)
Theorem listing_is_newest_first (l : list Found) :
  sort_by_time l ≡ₚ l ∧ StronglySorted newer_or_equal (sort_by_time l).
Proof.
  unfold sort_by_time. rewrite <- (rev_involutive l) at 2.
  induction (rev l) as [|x r [IHp IHs]]; simpl.
  - split; [done|constructor].
  - split.
    + rewrite insert_by_time_Permutation, IHp.
      rewrite Permutation_app_comm. done.
    + by apply insert_by_time_sorted.
Qed.

Lemma lower_char_idem c : lower_char (lower_char c) = lower_char c.
Proof. by destruct c as [[] [] [] [] [] [] [] []]. Qed.

Lemma lower_char_dot c :
  (if decide (lower_char c = "."%char) then true else false)
  = (if decide (c = "."%char) then true else false).
Proof. by destruct c as [[] [] [] [] [] [] [] []]. Qed.

Lemma toLowerCase_idem s : toLowerCase (toLowerCase s) = toLowerCase s.
Proof. induction s as [|c s IH]; simpl; [done|]. by rewrite lower_char_idem, IH. Qed.

Lemma from_last_dot_lower s :
  from_last_dot (toLowerCase s) = toLowerCase <$> from_last_dot s.
Proof.
  induction s as [|c s IH]; simpl; [done|]. rewrite IH.
  destruct (from_last_dot s); simpl; [done|].
  pose proof (lower_char_dot c) as Hdot.
  destruct (decide (lower_char c = "."%char)), (decide (c = "."%char)); done.
Qed.

Lemma extname_cons c r :
  extname (String c r)
  = if decide (c = "."%char)
    then (if decide (r = ".") then "" else default "" (from_last_dot r))
    else default "" (from_last_dot (String c r)).
Proof.
  destruct (decide (c = "."%char)) as [->|Hne]; [done|].
  destruct c as [[] [] [] [] [] [] [] []]; done.
Qed.

Lemma toLowerCase_is_dot r : toLowerCase r = "." ↔ r = ".".
Proof.
  destruct r as [|c [|d r]]; simpl; [done| |done].
  pose proof (lower_char_dot c) as Hdot.
  destruct (decide (lower_char c = "."%char)) as [Hl|Hl],
           (decide (c = "."%char)) as [Hc|Hc]; try done.
  - subst c. done.
  - split; intros [= H]; done.
Qed.

Lemma lower_char_is_dot c : lower_char c = "."%char ↔ c = "."%char.
Proof.
  pose proof (lower_char_dot c) as Hdot.
  destruct (decide (lower_char c = "."%char)), (decide (c = "."%char)); done.
Qed.

Lemma extname_lower n : extname (toLowerCase n) = toLowerCase (extname n).
Proof.
  destruct n as [|c r]; [done|].
  change (toLowerCase (String c r)) with (String (lower_char c) (toLowerCase r)).
  rewrite !extname_cons.
  destruct (decide (c = "."%char)) as [Hc|Hc].
  - rewrite decide_True by (by apply lower_char_is_dot).
    destruct (decide (r = ".")) as [Hr|Hr].
    + rewrite decide_True by (by apply toLowerCase_is_dot). done.
    + rewrite decide_False by (by rewrite toLowerCase_is_dot).
      rewrite from_last_dot_lower. by destruct (from_last_dot r).
  - rewrite decide_False by (by rewrite lower_char_is_dot).
    change (String (lower_char c) (toLowerCase r)) with (toLowerCase (String c r)).
    rewrite from_last_dot_lower. by destruct (from_last_dot (String c r)).
Qed.

(** X5. Matching ignores the case of letters: the search term, the file
    name and the file content can each be replaced by their lower-case
    form without changing whether the file matches. *)
Theorem matching_ignores_case (searchTerm : string) (fileType : FileType)
    (fname : string) (contents : Outcome string) :
  isMatch searchTerm fileType fname contents
  = isMatch (toLowerCase searchTerm) fileType (toLowerCase fname)
            match contents with
            | Resolved text => Resolved (toLowerCase text)
            | Rejected m => Rejected m
            end.
Proof.
  unfold isMatch. rewrite extname_lower, !toLowerCase_idem.
  by destruct contents; rewrite ?toLowerCase_idem.
Qed.

Lemma for_of_throws body (L : Dirent -> list string) files st m :
  Forall (fun file => ∀ a m, (body file a).2 = Some m -> m ∈ L file) files ->
  (for_of body files st).2 = Some m -> m ∈ flat_map L files.
Proof.
  intros Hall. revert st. induction Hall as [|file rest Hfile _ IH]; intros st; simpl;
    [done|].
  specialize (Hfile st). destruct (body file st) as [st' [m'|]]; simpl in *.
  - intros [= ->]. apply elem_of_app. left. by apply Hfile.
  - destruct (20 <=? _); [done|]. intros Hm. apply elem_of_app. right. by eapply IH.
Qed.

Lemma scanDirectory_throws term ft d :
  isDirectory d = true ->
  ∀ dir st m, (scanDirectory term ft dir d st).2 = Some m -> m ∈ locked_messages d.
Proof.
  induction d as [n c s|n files IH|n m'] using FileSearchFacts.Dirent_tree_ind;
    intros Hd dir st m; [done| |].
  - simpl. apply for_of_throws.
    eapply Forall_impl; [exact IH|]. intros file Hrec a m0. simpl in Hrec.
    destruct file as [fn fc fs|dn des|dn dm]; simpl; [done| |].
    + destruct (skipped dn); simpl; [done|]. intros Hm.
      exact (Hrec eq_refl (path_join dir dn) a m0 Hm).
    + destruct (skipped dn); simpl; [done|]. intros Hm.
      exact (Hrec eq_refl (path_join dir dn) a m0 Hm).
  - simpl. intros [= ->]. by apply list_elem_of_singleton.
Qed.

(** X19. A search fails only on a directory it cannot read: when the
    scan of a directory is aborted by an error, the message is the one
    thrown by reading some directory of the tree outside [node_modules]
    and [.git]; a tree whose directories can all be read is searched
    without error, whatever happens when its files are read. *)
Theorem search_fails_only_on_unreadable_directories (searchTerm : string)
    (fileType : FileType) (directory : string) (root : Dirent) :
  isDirectory root = true ->
  (∀ m, (search searchTerm fileType directory root).2 = Some m ->
        m ∈ locked_messages root)
  ∧ (locked_messages root = [] ->
     (search searchTerm fileType directory root).2 = None).
Proof.
  intros Hd.
  assert (∀ m, (search searchTerm fileType directory root).2 = Some m ->
               m ∈ locked_messages root) as Hthrows.
  { intros m. by apply scanDirectory_throws. }
  split; [done|]. intros Hnone.
  destruct (search searchTerm fileType directory root).2 as [m|] eqn:Hm; [|done].
  specialize (Hthrows m eq_refl). rewrite Hnone in Hthrows. by apply elem_of_nil in Hthrows.
Qed.

Lemma search_fails_only_on_unreadable_directories_witness :
  (search "notes" all "." SampleTrees.project).2 = None.
Proof.
  apply (proj2 (search_fails_only_on_unreadable_directories "notes" all "."
                  SampleTrees.project eq_refl)).
  reflexivity.
Defined.

End FileSearchListingFacts.

(** ** Truth table: substitution of the variables *)

Module TruthTableSubstitutionFacts.
Import Js TruthTable Boundaries.

Lemma chars_append a b :
  String.list_ascii_of_string (a +:+ b)
  = String.list_ascii_of_string a ++ String.list_ascii_of_string b.
Proof.
  induction a as [|c a IH]; [done|].
  change (c :: String.list_ascii_of_string (a +:+ b)
          = c :: String.list_ascii_of_string a ++ String.list_ascii_of_string b).
  by rewrite IH.
Qed.

Lemma is_upper_word c : is_upper c = true -> is_word c = true.
Proof. unfold is_word. by intros ->. Qed.

Lemma match_vars_step prev c rest :
  match_vars prev (c :: rest)
  = (if is_upper c && negb (wordness prev) && negb (wordness (head rest))
     then [c] else []) ++ match_vars (Some c) rest.
Proof. simpl. by destruct prev, rest. Qed.

Lemma replace_vars_step a prev c rest :
  replace_vars a prev (c :: rest)
  = (if is_upper c && negb (wordness prev) && negb (wordness (head rest))
     then render_bool (a !! c) else String c "")
    +:+ replace_vars a (Some c) rest.
Proof. simpl. by destruct prev, rest. Qed.

Lemma replaced_head a prev s :
  wordness (head (String.list_ascii_of_string (replace_vars a prev s)))
  = wordness (head s).
Proof.
  destruct s as [|c rest]; [done|]. rewrite replace_vars_step, chars_append.
  destruct (is_upper c) eqn:Hup; simpl.
  - destruct (negb (wordness prev) && negb (wordness (head rest))); simpl.
    + rewrite (is_upper_word c Hup). by destruct (a !! c) as [[]|].
    + done.
  - done.
Qed.

Lemma replaced_has_no_variable a s :
  ∀ prev prev', wordness prev' = wordness prev ->
    match_vars prev' (String.list_ascii_of_string (replace_vars a prev s)) = [].
Proof.
  induction s as [|c rest IH]; intros prev prev' Hw; [done|].
  rewrite replace_vars_step, chars_append.
  destruct (is_upper c && negb (wordness prev) && negb (wordness (head rest))) eqn:Hcond.
  - apply andb_true_iff in Hcond as [[Hup _]%andb_true_iff _].
    pose proof (is_upper_word c Hup) as Hword.
    destruct (a !! c) as [[]|]; simpl; apply IH; simpl; by rewrite Hword.
  - change (String.list_ascii_of_string (String c "")) with [c]. simpl app.
    rewrite match_vars_step, replaced_head, Hw, Hcond. simpl. by apply IH.
Qed.

(** X8. Whatever the assignment, the text handed to [eval] contains no
    variable any more: every stand-alone upper-case letter has been
    replaced by [true], [false] or [undefined], and no replacement makes
    another letter stand alone. *)
Theorem substitution_leaves_no_variable (expr : string) (assignment : gmap ascii bool) :
  extractVariables (replace_vars assignment None (String.list_ascii_of_string expr)) = [].
Proof.
  unfold extractVariables. by rewrite (replaced_has_no_variable assignment _ None None).
Qed.

Lemma replace_vars_unchanged a s :
  ∀ prev, match_vars prev s = [] ->
    String.list_ascii_of_string (replace_vars a prev s) = s.
Proof.
  induction s as [|c rest IH]; intros prev Hnone; [done|].
  rewrite match_vars_step in Hnone. rewrite replace_vars_step, chars_append.
  apply app_eq_nil in Hnone as [Hc Hrest].
  destruct (is_upper c && negb (wordness prev) && negb (wordness (head rest)));
    [done|].
  change (String.list_ascii_of_string (String c "")) with [c]. simpl.
  by rewrite IH.
Qed.

Lemma string_of_chars s : String.string_of_list_ascii (String.list_ascii_of_string s) = s.
Proof. induction s as [|c s IH]; simpl; [done|by rewrite IH]. Qed.

(** X9. An expression without variables is evaluated on one row, the
    empty assignment, and is handed to [eval] once and unchanged; the
    table has that one row, as the evaluation leaves it. *)
Theorem constant_expression_evaluated_as_is (expr : string)
    (eval : string -> Row -> Run (bool * Row)) :
  extractVariables expr = [] ->
  generateCombinations (extractVariables expr) = [∅]
  ∧ build_table eval expr (generateCombinations (extractVariables expr))
    = match eval expr ∅ with
      | Done (result, row) => Done [(row, result)]
      | Raised e => Raised e
      | Tampered a => Tampered a
      end.
Proof.
  intros Hnone. rewrite Hnone. split; [done|].
  change (generateCombinations []) with [(∅ : gmap ascii bool)].
  assert (match_vars None (String.list_ascii_of_string expr) = []) as Hm.
  { unfold extractVariables, sort in Hnone.
    apply Permutation_nil_r. rewrite <- Hnone, merge_sort_Permutation.
    destruct (match_vars None (String.list_ascii_of_string expr)) as [|v l] eqn:E; [done|].
    exfalso. assert (v ∈ new_Set (v :: l)) as Hin.
    { apply TruthTableFacts.new_Set_elem. by left. }
    assert (v ∈ merge_sort char_le (new_Set (v :: l))) as Hin'
      by (by rewrite merge_sort_Permutation).
    rewrite Hnone in Hin'. by apply elem_of_nil in Hin'. }
  simpl. unfold evaluate.
  assert (replace_vars ∅ None (String.list_ascii_of_string expr) = expr) as ->.
  { rewrite <- (string_of_chars (replace_vars _ _ _)), replace_vars_unchanged by done.
    apply string_of_chars. }
  by destruct (eval expr ∅) as [[result row]| |].
Qed.

Lemma constant_expression_evaluated_as_is_witness :
  generateCombinations (extractVariables "true && !false") = [∅].
Proof.
  apply (constant_expression_evaluated_as_is "true && !false"
           (fun _ row => Done (true, row))).
  reflexivity.
Defined.

End TruthTableSubstitutionFacts.

(** ** Handlers: what can leave them as an exception *)

Module HandlerFacts.
Import Js Tools Mcp ToolsFacts.

(** X10. [twitter-X-post] never throws, and its answer always opens with
    [Tweet created successfully:]: [createPost] catches a failed tweet
    itself and returns the error as its text, so the handler wraps
    [Error sending tweet: ...] in the same success line as a tweet id. *)
Theorem twitter_always_reports_success (v : Args) (w : World) (status : string) :
  v !! "status" = Some (VString status) ->
  ∃ inner,
    twitter_X_post v w
    = Resolved [text_block (FORMAT.GREEN +:+ FORMAT.BOLD +:+ "Tweet created successfully:"
                            +:+ FORMAT.RESET +:+ " " +:+ inner +:+ NL)]
    ∧ inner = match twitter_tweet w status with
              | Resolved id => "Tweet sent successfully: " +:+ id
              | Rejected message => "Error sending tweet: " +:+ message
              end.
Proof.
  intros Hs. unfold twitter_X_post, createPost. rewrite Hs.
  destruct (twitter_tweet w status); simpl; by eexists.
Qed.

Lemma twitter_always_reports_success_witness :
  ∃ inner,
    twitter_X_post (<["status" := VString "hello"]> ∅) Samples.failing_world
    = Resolved [text_block (FORMAT.GREEN +:+ FORMAT.BOLD +:+ "Tweet created successfully:"
                            +:+ FORMAT.RESET +:+ " " +:+ inner +:+ NL)]
    ∧ inner = "Error sending tweet: boom".
Proof.
  apply (twitter_always_reports_success (<["status" := VString "hello"]> ∅)
           Samples.failing_world "hello").
  reflexivity.
Defined.

(** X11. Called with arguments of the declared types, the handlers of
    [adder], [print-menu], [twitter-X-post], [github-repo-info] and
    [local-file-search] never throw: whatever the services and the file
    system do, they return one text block. *)
Theorem handlers_that_never_throw (v : Args) (w : World) :
  (∀ a b, v !! "a" = Some (VNumber a) -> v !! "b" = Some (VNumber b) ->
     ∃ t, adder v w = Resolved [text_block t])
  ∧ ((v !! "title" = None ∨ ∃ title, v !! "title" = Some (VString title)) ->
     ∃ t, print_menu v w = Resolved [text_block t])
  ∧ (∀ status, v !! "status" = Some (VString status) ->
     ∃ t, twitter_X_post v w = Resolved [text_block t])
  ∧ (∀ owner repo, v !! "owner" = Some (VString owner) ->
     v !! "repo" = Some (VString repo) ->
     ∃ t, github_repo_info v w = Resolved [text_block t])
  ∧ (∀ searchTerm directory fileType,
       v !! "searchTerm" = Some (VString searchTerm) ->
       v !! "directory" = Some (VString directory) ->
       v !! "fileType" = Some (VString fileType) ->
       fileType ∈ ["all"; "name"; "extension"; "content"] ->
     ∃ t, local_file_search v w = Resolved [text_block t]).
Proof.
  split_and!.
  - intros a b Ha Hb. unfold adder. rewrite Ha, Hb. by eexists.
  - intros Ht. unfold print_menu.
    destruct Ht as [-> | [title ->]]; handler_cases.
  - intros status Hs. unfold twitter_X_post, createPost. rewrite Hs.
    destruct (twitter_tweet w status); by eexists.
  - intros owner repo Ho Hr. unfold github_repo_info. rewrite Ho, Hr. handler_cases.
  - intros searchTerm directory fileType H1 H2 H3 Hft. unfold local_file_search.
    rewrite H1, H2, H3. destruct (file_type_of_option _ Hft) as [ft ->].
    handler_cases.
Qed.

(** X12. [news-by-topic], [wikipedia-search] and [movie-ratings] throw
    in one case, and only then: when [encodeURIComponent], which they
    call before their [try] block, throws on their argument; the error
    thrown is that of [encodeURIComponent]. *)
Theorem handlers_throw_only_when (v : Args) (w : World) (m : string) :
  (∀ topic, v !! "topic" = Some (VString topic) ->
     news_by_topic v w = Rejected m ↔ encodeURIComponent w topic = Rejected m)
  ∧ (∀ query, v !! "query" = Some (VString query) ->
     wikipedia_search v w = Rejected m ↔ encodeURIComponent w query = Rejected m)
  ∧ (∀ title, v !! "title" = Some (VString title) ->
     (v !! "year" = None ∨ ∃ y, v !! "year" = Some (VNumber y)) ->
     (v !! "plot" = None ∨ ∃ p, v !! "plot" = Some (VString p)) ->
     movie_ratings v w = Rejected m ↔ encodeURIComponent w title = Rejected m).
Proof.
  split_and!.
  - intros topic Ht. unfold news_by_topic. rewrite Ht.
    destruct (encodeURIComponent w topic); [|by split; intros [= ->]]. split; [|done].
    handler_cases.
  - intros query Hq. unfold wikipedia_search. rewrite Hq.
    destruct (encodeURIComponent w query); [|by split; intros [= ->]]. split; [|done].
    handler_cases.
  - intros title Ht Hy Hp. unfold movie_ratings. rewrite Ht.
    destruct Hy as [-> | [y ->]], Hp as [-> | [p ->]];
      (destruct (encodeURIComponent w title); [|by split; intros [= ->]]); (split; [|done]);
      handler_cases.
Qed.

End HandlerFacts.

(** ** Dispatcher: what a request can and cannot do to the table *)

Module IndexTableFacts.
Import Js Tools Mcp Index IndexFacts SessionEnd.

(** X13. A handshake needs the absence of a session id: an empty header
    is treated, on every route, exactly as a missing one; an initialize
    request that carries a non-empty id unknown to the table is rejected
    with the error envelope and creates no session. *)
Theorem handshake_needs_no_session_id (st : State) (sid : string) (env : Env) :
  truthy sid = true -> transports st !! sid = None -> sid ∉ Object_prototype ->
  route POST {| mcp_session_id := Some sid; body := Initialize |} env st
  = (Respond 400 (JsonBody error_envelope), st)
  ∧ (∀ method b,
       route method {| mcp_session_id := Some ""; body := b |} env st
       = route method {| mcp_session_id := None; body := b |} env st).
Proof.
  intros Hs Hnone Hproto. split.
  - apply (route_rejected st _ POST env); simpl; [by right|by rewrite Hs].
  - by intros [] b.
Qed.

Lemma handshake_needs_no_session_id_witness :
  route POST {| mcp_session_id := Some "my-own-session"; body := Initialize |}
        Samples.first_env start
  = (Respond 400 (JsonBody error_envelope), start).
Proof.
  apply (handshake_needs_no_session_id start "my-own-session" Samples.first_env).
  - reflexivity.
  - reflexivity.
  - apply (bool_decide_unpack _). vm_compute. exact I.
Defined.

(** X16. In every state the server can reach, a key of the table is an
    id the server generated itself, it is the id carried by the open
    transport it refers to, and no other key refers to that transport. *)
Theorem table_keys_are_the_transports_ids (st : State) (sid : string) (r : nat) :
  reachable st -> transports st !! sid = Some r ->
  is_uuid sid = true
  ∧ heap st !! r = Some {| sessionId := Some sid; closed := false |}
  ∧ (∀ sid', transports st !! sid' = Some r -> sid' = sid).
Proof.
  intros Hreach Htab. pose proof (reachable_well_formed _ Hreach) as Hwf.
  pose proof (wf_table st Hwf _ _ Htab) as Hr.
  destruct (wf_uuid st Hwf _ (list_elem_of_lookup_2 _ _ _ Hr)) as (sid0 & [= <-] & Huuid).
  split_and!; [done..|].
  intros sid' Htab'. pose proof (wf_table st Hwf _ _ Htab') as Hr'.
  rewrite Hr in Hr'. by injection Hr'.
Qed.

Lemma table_keys_are_the_transports_ids_witness :
  is_uuid (randomUUID Samples.first_env) = true.
Proof.
  exact (proj1 (table_keys_are_the_transports_ids Samples.one_session
                  (randomUUID Samples.first_env) 0 reachable_one_session eq_refl)).
Defined.

(** X14. A session id that is the name of a property every object
    inherits ([constructor], [toString], [__proto__], ...) is never
    answered with the 400 rejection: on all three routes the look-up in
    the table finds the inherited property, and the route throws when it
    calls [handleRequest] on it; the state is left as it was. *)
Theorem inherited_names_throw (st : State) (sid : string) (method : Method)
    (b : Body) (env : Env) :
  reachable st -> sid ∈ Object_prototype ->
  route method {| mcp_session_id := Some sid; body := b |} env st
  = (Threw "transport.handleRequest is not a function", st).
Proof.
  intros Hreach Hin. pose proof (reachable_well_formed _ Hreach) as Hwf.
  assert (truthy sid = true) as Hs.
  { unfold Object_prototype in Hin.
    repeat (apply elem_of_cons in Hin as [->|Hin]; [done|]). by apply elem_of_nil in Hin. }
  assert (transports st !! sid = None) as Hnone.
  { destruct (transports st !! sid) as [r|] eqn:Htab; [|done].
    pose proof (wf_table st Hwf _ _ Htab) as Hr.
    destruct (wf_uuid st Hwf _ (list_elem_of_lookup_2 _ _ _ Hr)) as (sid0 & [= <-] & Huuid).
    by destruct (is_uuid_not_inherited _ Huuid). }
  assert (get (transports st) sid = Inherited) as Hget.
  { unfold get. rewrite Hnone. by rewrite bool_decide_eq_true_2. }
  destruct method; unfold route, post, handleSessionRequest; simpl; by rewrite Hs, Hget.
Qed.

Lemma inherited_names_throw_witness :
  route GET {| mcp_session_id := Some "hasOwnProperty"; body := OtherBody |}
        Samples.first_env Samples.one_session
  = (Threw "transport.handleRequest is not a function", Samples.one_session).
Proof.
  apply (inherited_names_throw Samples.one_session "hasOwnProperty" GET OtherBody
           Samples.first_env reachable_one_session).
  apply (bool_decide_unpack _). vm_compute. exact I.
Defined.

Lemma close_other st r r' sid :
  well_formed st -> transports st !! sid = Some r -> r' ≠ r ->
  transports (close r' st) !! sid = Some r ∧ heap (close r' st) !! r = heap st !! r.
Proof.
  intros Hwf Htab Hne. pose proof (wf_table st Hwf _ _ Htab) as Hr.
  destruct (heap st !! r') as [[o c]|] eqn:Hr'; [|by unfold close; rewrite Hr'].
  destruct (wf_uuid st Hwf _ (list_elem_of_lookup_2 _ _ _ Hr')) as (sid0 & Ho & Huuid).
  simpl in Ho. subst o.
  rewrite (close_spec st r' sid0 c Hr' (is_uuid_truthy _ Huuid)). simpl. split.
  - rewrite lookup_delete_ne; [done|]. intros <-.
    apply Hne. by eapply (wf_ids st Hwf); [exact Hr'|exact Hr|].
  - by rewrite list_lookup_insert_ne.
Qed.

Lemma forwarded_keeps_state st r t method b env :
  heap st !! r = Some t -> is_Some (sessionId t) -> method ≠ DELETE ->
  (handleRequest r method b env st).2 = st.
Proof.
  intros Hr [sid Hsid] Hm. unfold handleRequest. rewrite Hr.
  destruct method; [|done..]. destruct b; try done. by rewrite Hsid.
Qed.

(** X15. Sessions are isolated from one another: in every state the
    server can reach, an event that is not the termination of a given
    session (the closure of its transport, or a DELETE carrying its id)
    leaves the session in the table and its transport as it was;
    whatever other clients send, handshakes included. *)
Theorem sessions_are_isolated (st : State) (e : Event) (sid : string) (r : nat) :
  reachable st -> possible e st -> transports st !! sid = Some r ->
  ¬ ends_session e sid r ->
  transports (step e st) !! sid = Some r ∧ heap (step e st) !! r = heap st !! r.
Proof.
  intros Hreach Hp Htab Hend. pose proof (reachable_well_formed _ Hreach) as Hwf.
  pose proof (wf_table st Hwf _ _ Htab) as Hr.
  destruct e as [method [header b] env|r']; simpl in *; [|by apply close_other].
  destruct Hp as [Huuid Hfresh].
  destruct (header_truthy header) eqn:Hh.
  - destruct header as [sid'|]; [simpl in Hh|done].
    destruct (transports st !! sid') as [r'|] eqn:Htab'.
    + rewrite (route_found st sid' r') by done.
      pose proof (wf_table st Hwf _ _ Htab') as Hr'.
      assert (method = DELETE ∨ method ≠ DELETE) as [->|Hm]
        by (destruct method; by auto).
      * unfold handleRequest. rewrite Hr'. simpl. apply close_other; [done..|].
        intros ->. apply Hend. rewrite Hr in Hr'. by injection Hr' as ->.
      * by rewrite (forwarded_keeps_state st r' _ method b env Hr').
    + destruct method; unfold route, post, handleSessionRequest, get; simpl;
        rewrite Hh, Htab'; by destruct (bool_decide _).
  - destruct method; unfold route, handleSessionRequest; simpl; rewrite ?Hh; [|done..].
    destruct (isInitializeRequest b) eqn:Hb.
    + assert (b = Initialize) as -> by (by destruct b).
      rewrite post_handshake by done. simpl. split.
      * rewrite lookup_insert_ne; [done|]. intros Heq.
        by apply (Hfresh _ (list_elem_of_lookup_2 _ _ _ Hr)); rewrite Heq.
      * apply lookup_app_l. by eapply lookup_lt_Some.
    + unfold post. simpl. by rewrite Hh, Hb.
Qed.

Lemma sessions_are_isolated_witness :
  transports (step (Incoming POST Samples.handshake Samples.second_env) Samples.one_session)
    !! randomUUID Samples.first_env = Some 0%nat.
Proof.
  refine (proj1 (sessions_are_isolated Samples.one_session
                   (Incoming POST Samples.handshake Samples.second_env)
                   (randomUUID Samples.first_env) 0 reachable_one_session _ eq_refl _)).
  - split; [reflexivity|]. intros t Ht.
    apply list_elem_of_singleton in Ht as ->. discriminate.
  - exact (fun H => H).
Defined.

(** X20. A terminated session is never served again: in every state
    the server can reach, a request that carries the id of a closed
    transport is rejected with status 400 on all three routes and
    changes nothing, however many sessions have been opened since. *)
Theorem closed_session_stays_rejected (st : State) (r : nat) (sid : string)
    (method : Method) (b : Body) (env : Env) :
  reachable st -> heap st !! r = Some {| sessionId := Some sid; closed := true |} ->
  InvalidSession (route method {| mcp_session_id := Some sid; body := b |} env st).1
  ∧ (route method {| mcp_session_id := Some sid; body := b |} env st).2 = st.
Proof.
  intros Hreach Hr. pose proof (reachable_well_formed _ Hreach) as Hwf.
  destruct (wf_uuid st Hwf _ (list_elem_of_lookup_2 _ _ _ Hr)) as (sid0 & [= <-] & Huuid).
  assert (transports st !! sid = None) as Hnone.
  { destruct (transports st !! sid) as [r'|] eqn:Htab; [|done].
    pose proof (wf_table st Hwf _ _ Htab) as Hr'.
    assert (r' = r) as -> by (by eapply (wf_ids st Hwf); [exact Hr'|exact Hr|]).
    rewrite Hr in Hr'. done. }
  rewrite (route_rejected st _ method env).
  - split; [by eexists|done].
  - simpl. right. split; [done|by apply is_uuid_not_inherited].
  - simpl. by rewrite (is_uuid_truthy _ Huuid).
Qed.

Lemma reachable_reopened : reachable SampleStates.reopened.
Proof.
  apply reachable_step; [apply reachable_step; [exact reachable_one_session|exact I]|].
  split; [reflexivity|]. intros t Ht.
  apply list_elem_of_singleton in Ht as ->. discriminate.
Qed.

Lemma closed_session_stays_rejected_witness :
  (route POST {| mcp_session_id := Some (randomUUID Samples.first_env); body := ToolsList |}
         Samples.second_env SampleStates.reopened).2
  = SampleStates.reopened.
Proof.
  exact (proj2 (closed_session_stays_rejected SampleStates.reopened 0
                  (randomUUID Samples.first_env) POST ToolsList Samples.second_env
                  reachable_reopened eq_refl)).
Defined.

End IndexTableFacts.

(** ** Client: the history the chat loop builds *)

Module ClientFacts.
Import Js Client.

(** X17. The chat loop only appends to the history, and what it appends
    alternates between the user and the model, the user first: after any
    number of turns the new entries are [k] complete exchanges, with [k]
    at most the number of turns; only a run cut short by a rejected call
    ends on a user entry without answer. [EXIT] adds nothing. *)
Theorem history_alternates (turns : list Turn) (chatHistory : list Content) :
  ∃ k new,
    (k <= length turns)%nat
    ∧ match chatLoop turns chatHistory with
      | Exited h | Waiting h =>
          h = chatHistory ++ new ∧ map role new = exchanges k
      | Crashed _ h =>
          h = chatHistory ++ new ∧ map role new = exchanges k ++ ["user"]
      end.
Proof.
  revert chatHistory. induction turns as [|turn rest IH]; intros h0; simpl.
  - exists 0%nat, []. by rewrite app_nil_r.
  - destruct (bool_decide _).
    { exists 0%nat, []. rewrite app_nil_r. split; [lia|done]. }
    assert (∀ answer,
              ∃ k new, (k <= S (length rest))%nat
                ∧ match chatLoop rest ((h0 ++ [user_says (question turn)])
                                       ++ [model_says answer]) with
                  | Exited h | Waiting h =>
                      h = h0 ++ new ∧ map role new = exchanges k
                  | Crashed _ h =>
                      h = h0 ++ new ∧ map role new = exchanges k ++ ["user"]
                  end) as Hnext.
    { intros answer.
      destruct (IH ((h0 ++ [user_says (question turn)]) ++ [model_says answer]))
        as (k & new & Hk & Hrun).
      exists (S k), (user_says (question turn) :: model_says answer :: new).
      split; [lia|].
      destruct (chatLoop rest _); destruct Hrun as [-> Hroles];
        (split; [by rewrite <- !app_assoc|simpl; by rewrite Hroles]). }
    destruct (generateContent turn _) as [part|m].
    + destruct (functionCall part) as [[name args]|]; [|apply Hnext].
      destruct (callTool turn name args) as [content|m]; [apply Hnext|].
      exists 0%nat, [user_says (question turn)]. split; [lia|done].
    + exists 0%nat, [user_says (question turn)]. split; [lia|done].
Qed.

(** A question that is [exit] in any letter case, with blanks around it,
    ends the loop before anything is sent. *)
Example exit_in_any_case :
  ∀ turn rest h, question turn = "  Exit " -> chatLoop (turn :: rest) h = Exited h.
Proof. intros turn rest h Hq. simpl. by rewrite Hq. Qed.

End ClientFacts.

(** ** Registration on a server that already has tools *)

Module RegistrationFacts.
Import Js Tools Mcp.

Lemma resolve_app (reg1 reg2 : Registry) n :
  resolve (reg1 ++ reg2) n
  = match resolve reg1 n with Some t => Some t | None => resolve reg2 n end.
Proof.
  induction reg1 as [|t reg1 IH]; simpl; [done|].
  by destruct (bool_decide (name (descriptor t) = n)).
Qed.

Lemma register_all_extends (tools reg : Registry) :
  NoDup (map (fun t => name (descriptor t)) tools) ->
  (∀ t, t ∈ reg -> name (descriptor t) ∉ map (fun t => name (descriptor t)) tools) ->
  register_all tools reg = Resolved (reg ++ tools).
Proof.
  revert reg. induction tools as [|t tools IH]; intros reg Hnd Hdisj; simpl.
  - by rewrite app_nil_r.
  - apply NoDup_cons in Hnd as [Ht Hnd]. unfold register.
    rewrite ToolsFacts.resolve_absent.
    + destruct t as [d h]. simpl in *. rewrite IH; [by rewrite <- app_assoc|done|].
      intros t' [Hin|Hin%list_elem_of_singleton]%elem_of_app.
      * intros Hin'. apply (Hdisj t' Hin). by right.
      * by subst t'.
    + intros (t' & Heq & Hin)%list_elem_of_fmap.
      apply (Hdisj t' Hin). rewrite <- Heq. by left.
Qed.

Lemma register_all_collides (tools reg : Registry) t :
  t ∈ reg -> name (descriptor t) ∈ map (fun t => name (descriptor t)) tools ->
  ∃ m, register_all tools reg = Rejected m.
Proof.
  revert reg. induction tools as [|u tools IH]; intros reg Hin Hname; simpl in *.
  - by apply elem_of_nil in Hname.
  - unfold register. destruct (resolve reg (name (descriptor u))) eqn:Hres; [by eexists|].
    apply elem_of_cons in Hname as [Heq|Hname].
    + exfalso. apply find_none with (x := t) in Hres; [|by apply list_elem_of_In].
      by rewrite Heq, bool_decide_eq_true_2 in Hres.
    + apply IH; [|done]. apply elem_of_app. by left.
Qed.

Lemma registerTools_is_register_all server :
  ToolsJs.registerTools server = register_all Index.registered server.
Proof.
  assert (∃ t1 t2 t3 t4 t5 t6 t7 t8 t9 t10,
            Index.registered = [t1; t2; t3; t4; t5; t6; t7; t8; t9; t10]
            ∧ ToolsJs.registerTools server
              = register_all [t1; t2; t3; t4; t5; t6; t7; t8; t9; t10] server)
    as (t1 & t2 & t3 & t4 & t5 & t6 & t7 & t8 & t9 & t10 & -> & ->); [|done].
  do 10 eexists. split; [reflexivity|].
  unfold ToolsJs.registerTools, tool, and_then.
  cbn [register_all descriptor handler].
  repeat match goal with
         | |- context [register ?r ?d ?h] => destruct (register r d h); [|reflexivity]
         end.
  reflexivity.
Qed.

(** X18. [registerTools] of tools.js succeeds exactly on a server none
    of whose tools has one of its ten names: it then adds its ten tools
    after the tools already there, in the order of the source; on a
    server that holds one of the names it throws. *)
Theorem registerTools_extends (server : Registry) :
  ((∀ t, t ∈ server ->
         name (descriptor t) ∉ map (fun t => name (descriptor t)) Index.registered) ->
   ToolsJs.registerTools server = Resolved (server ++ Index.registered))
  ∧ (∀ t, t ∈ server ->
          name (descriptor t) ∈ map (fun t => name (descriptor t)) Index.registered ->
          ∃ m, ToolsJs.registerTools server = Rejected m).
Proof.
  split.
  - intros Hdisj. rewrite registerTools_is_register_all.
    apply register_all_extends; [apply ToolsFacts.registered_names_distinct|done].
  - intros t Ht Hname. rewrite registerTools_is_register_all.
    by apply (register_all_collides _ _ t).
Qed.

(** After tools-basic.js has registered its [adder], [registerTools] of
    tools.js throws. *)
Example both_registrations_collide :
  ∃ m, and_then (ToolsBasicJs.registerTools []) ToolsJs.registerTools = Rejected m.
Proof. by eexists. Qed.

End RegistrationFacts.

(** ** Truth table: completeness *)

Module TruthTableCompletenessFacts.
Import Js TruthTable TruthTableFacts.

Lemma binary_value_acc bits acc :
  fold_left (fun a (b : bool) => 2 * a + (if b then 1 else 0)) bits acc
  = acc * 2 ^ Z.of_nat (length bits) + binary_value bits
  ∧ 0 <= binary_value bits < 2 ^ Z.of_nat (length bits).
Proof.
  unfold binary_value. revert acc. induction bits as [|b bits IH]; intros acc.
  - simpl. lia.
  - cbn [fold_left length].
    destruct (IH (2 * acc + (if b then 1 else 0))) as [-> Hb].
    destruct (IH (2 * 0 + (if b then 1 else 0))) as [-> _].
    replace (Z.of_nat (S (length bits))) with (Z.of_nat (length bits) + 1) by lia.
    rewrite Z.pow_add_r, Z.pow_1_r by lia.
    destruct b; split; lia.
Qed.

Lemma binary_value_cons b bits :
  binary_value (b :: bits)
  = (if b then 1 else 0) * 2 ^ Z.of_nat (length bits) + binary_value bits.
Proof.
  unfold binary_value at 1. cbn [fold_left].
  destruct (binary_value_acc bits (2 * 0 + (if b then 1 else 0))) as [-> _]. lia.
Qed.

Lemma binary_value_inj l1 l2 :
  length l1 = length l2 -> binary_value l1 = binary_value l2 -> l1 = l2.
Proof.
  revert l2. induction l1 as [|b1 l1 IH]; intros [|b2 l2] Hlen Hval; try done.
  simpl in Hlen. injection Hlen as Hlen. rewrite !binary_value_cons, <- Hlen in Hval.
  destruct (binary_value_acc l1 0) as [_ H1], (binary_value_acc l2 0) as [_ H2].
  rewrite <- Hlen in H2.
  assert (b1 = b2) as -> by (destruct b1, b2; [done|lia|lia|done]).
  f_equal. apply IH; [done|lia].
Qed.

Lemma row_spells vars (i : nat) row :
  NoDup vars -> (length vars <= 30)%nat ->
  generateCombinations vars !! i = Some row ->
  binary_value (row_bits vars row) = Z.of_nat i.
Proof.
  intros Hnd Hlen Hrow. pose proof (combinations_spell vars Hnd Hlen) as Hspell.
  assert (map (fun row => binary_value (row_bits vars row)) (generateCombinations vars) !! i
          = Some (binary_value (row_bits vars row))) as Hl.
  { change (map ?f ?l) with (f <$> l). by rewrite list_lookup_fmap, Hrow. }
  rewrite Hspell in Hl. change (map ?f ?l) with (f <$> l) in Hl.
  rewrite list_lookup_fmap in Hl.
  destruct (seq 0 (2 ^ length vars) !! i) as [j|] eqn:Hj; [|done].
  apply lookup_seq in Hj as [-> _]. simpl in Hl. by injection Hl.
Qed.

(** X21. The table is complete and without repetition: for every way of
    giving truth values to the variables of the expression there is
    exactly one row that assigns these values. *)
Theorem every_assignment_has_one_row (expr : string) (f : ascii -> bool) :
  let vars := extractVariables expr in
  ∃ i row,
    generateCombinations vars !! i = Some row
    ∧ (∀ v, v ∈ vars -> row !! v = Some (f v))
    ∧ (∀ j row', generateCombinations vars !! j = Some row' ->
                 (∀ v, v ∈ vars -> row' !! v = Some (f v)) -> j = i).
Proof.
  intros vars.
  assert (length vars <= 30)%nat as Hlen.
  { pose proof (extractVariables_length expr). unfold vars. lia. }
  pose proof (extractVariables_NoDup expr : NoDup vars) as Hnd.
  destruct (binary_value_acc (map f vars) 0) as [_ Hbound]. rewrite length_map in Hbound.
  set (i := Z.to_nat (binary_value (map f vars))).
  assert (i < length (generateCombinations vars))%nat as Hi.
  { rewrite combinations_length by done. unfold i.
    rewrite pow2_nat in Hbound. lia. }
  destruct (lookup_lt_is_Some_2 _ _ Hi) as [row Hrow].
  assert (∀ row', (∀ v, v ∈ vars -> row' !! v = Some (f v)) ->
                  row_bits vars row' = map f vars) as Hbits.
  { intros row' Hrow'. unfold row_bits. apply map_ext_in.
    intros v Hv%list_elem_of_In. by rewrite (Hrow' v Hv). }
  exists i, row. split_and!; [done| |].
  - assert (row_bits vars row = map f vars) as Heq.
    { apply binary_value_inj; [unfold row_bits; by rewrite !length_map|].
      rewrite (row_spells vars i row) by done. unfold i. lia. }
    pose proof (combinations_dom vars) as Hdom.
    rewrite Forall_forall in Hdom. specialize (Hdom row (list_elem_of_lookup_2 _ _ _ Hrow)).
    intros v Hv. assert (v ∈ dom row) as [x Hx]%elem_of_dom by (rewrite Hdom; set_solver).
    rewrite Hx. f_equal.
    assert (In v vars) as Hin by (by apply list_elem_of_In).
    unfold row_bits in Heq.
    clear -Heq Hin Hx. induction vars as [|u vars IH]; [done|].
    simpl in Heq. injection Heq as Hu Hrest. destruct Hin as [->|Hin].
    + by rewrite Hx in Hu.
    + by apply IH.
  - intros j row' Hj Hrow'.
    pose proof (row_spells vars j row' Hnd Hlen Hj) as Hspell.
    rewrite (Hbits row' Hrow') in Hspell. unfold i. lia.
Qed.

End TruthTableCompletenessFacts.
